(** * Function-Cooldowns: the [Cooldown] coordinator of [cooldowns/cooldown.py]

    A shallow embedding of the coordinator (bucket resolution, the tracker
    cache, eviction, introspection, the decorator's wrapper) together with
    the properties its specification states about it.

    Conventions.
    - Python values that can be arguments of a rate-limited callable are
      the hashable scalars of [value]; Python's [bool] is a subclass of
      [int] ([True == 1]), so booleans are the integers 0 and 1.
    - Time is counted in ticks of the wall clock, as integers; the source
      uses float seconds, of which only order, addition and subtraction
      are used.
    - A method reads and mutates the coordinator object and may raise; it
      is a function [Cooldown -> outcome A * Cooldown] (the state is
      returned on a raise too, since Python keeps the mutations made
      before the exception).
    - The wall clock read by a method is passed to it as [now]. *)

From stdpp Require Import base option list strings countable gmap fin_maps.
From Stdlib Require Import ZArith Lia.

Local Open Scope Z_scope.

(** ** Python values, exceptions and outcomes *)

Inductive value : Type :=
  | VNone
  | VInt (z : Z)
  | VStr (s : string).

#[global] Instance value_eq_dec : EqDecision value.
Proof. solve_decision. Defined.

#[global] Instance value_countable : Countable value.
Proof.
  refine (inj_countable'
    (fun v => match v with
              | VNone => inl ()
              | VInt z => inr (inl z)
              | VStr s => inr (inr s)
              end)
    (fun x => match x with
              | inl _ => VNone
              | inr (inl z) => VInt z
              | inr (inr s) => VStr s
              end) _).
  by intros [].
Defined.

(** Python truthiness of a scalar ([not v] is its negation). *)
Definition truthy_value (v : value) : bool :=
  match v with
  | VNone => false
  | VInt z => negb (z =? 0)
  | VStr s => negb (String.eqb s "")
  end.

Inductive exn : Type :=
  | RuntimeError (msg : string)
  | RecursionError
  | NonExistent
  | CallableOnCooldown (retry_after : Z)
  | UserError (payload : value).

Inductive outcome (A : Type) : Type :=
  | Ok (a : A)
  | Raise (e : exn).
Arguments Ok {A} a.
Arguments Raise {A} e.

(** Positional arguments are a tuple, keyword arguments a dict. *)
Abbreviation pyargs := (list value) (only parsing).
Abbreviation pykwargs := (gmap string value) (only parsing).

(** A Python callable taking [*args, **kwargs]: whether it is a coroutine
    function ([asyncio.iscoroutinefunction]), what a call (awaited when
    it is a coroutine) produces, and its [_cooldowns] attribute, the
    coordinators attached to it (objects are named by their identity). *)
Record Callable : Type := mkCallable {
  iscoroutinefunction : bool;
  call : pyargs -> pykwargs -> outcome value;
  _cooldowns : list positive
}.

(** Modelled from the spec: [utils.maybe_coro] is not in the sources; the
    spec has the predicate "sync or asynchronous, evaluated first with the
    call's own arguments": the callable is called and, when the result is
    awaitable, awaited. *)
Definition maybe_coro (f : Callable) (args : pyargs) (kwargs : pykwargs)
  : outcome value := call f args kwargs.

(** ** Bucket keys *)

(** Modelled from the spec: [buckets._HashableArguments] is not in the
    sources; the spec's BucketKey is the "ordered sequence of positional
    values + mapping of keyword name -> value, both compared/hashed
    structurally". A dict compares regardless of insertion order, as a
    [gmap] does. *)
Record _HashableArguments : Type := HashableArguments {
  ha_args : list value;
  ha_kwargs : gmap string value
}.

#[global] Instance _HashableArguments_eq_dec : EqDecision _HashableArguments.
Proof. solve_decision. Defined.

#[global] Instance _HashableArguments_countable : Countable _HashableArguments.
Proof.
  refine (inj_countable'
    (fun b => (ha_args b, ha_kwargs b))
    (fun p => HashableArguments p.1 p.2) _).
  by intros [].
Defined.

(** What a variable annotated [Optional[_HashableArguments]] holds: [None]
    or a key. The cache is a dict indexed by such objects:
    [__aenter__] indexes it with [self._last_bucket], which is [None]
    until [__call__] has run. *)
Abbreviation bucket_ref := (option _HashableArguments) (only parsing).

(** Modelled from the spec: truthiness of a bucket reference as tested by
    [if not bucket]. [None] is falsy; the spec gives a BucketKey no length
    and no boolean conversion, so an instance is truthy as every plain
    Python object is. *)
Definition truthy (bucket : bucket_ref) : bool :=
  match bucket with
  | None => false
  | Some _ => true
  end.

(** ** Bucket strategies *)

(** [CooldownBucket] has the members [all], [args] and [kwargs]; any other
    object with a [process] method is a custom strategy. *)
Inductive CooldownBucketProtocol : Type :=
  | CooldownBucket_all
  | CooldownBucket_args
  | CooldownBucket_kwargs
  | CustomBucket (process : pyargs -> pykwargs -> outcome value).

Module CooldownBucket.
(** Modelled from the spec: [CooldownBucket.process] is not in the
    sources; the spec's strategies are "All: key = (positional_args,
    keyword_args)", "PositionalOnly: key = positional_args only" and
    "KeywordOnly: key = keyword_args only". *)
Definition process_all (args : pyargs) (kwargs : pykwargs)
  : list value * gmap string value := (args, kwargs).

(** Modelled from the spec: [process] of the member [args],
    "PositionalOnly: key = positional_args only; keyword arguments
    ignored". *)
Definition process_args (args : pyargs) (kwargs : pykwargs)
  : list value := args.

(** Modelled from the spec: [process] of the member [kwargs],
    "KeywordOnly: key = keyword_args only". *)
Definition process_kwargs (args : pyargs) (kwargs : pykwargs)
  : gmap string value := kwargs.
End CooldownBucket.

(** ** The per-bucket tracker *)

Module CooldownTimesPer.

(** Modelled from the spec: [cooldown_times_per.CooldownTimesPer] is not
    in the sources; the spec's WindowTracker (FixedDuration) has the
    attributes "limit", "consumed", "window_start / window_deadline"
    and "owner (back-reference to its coordinator)"; the constructor
    call [CooldownTimesPer(self.limit, self.time_period, self)] of the
    source gives it the window length too. *)
Record t : Type := mk {
  limit : Z;
  time_period : Z;
  _cooldown : positive;
  consumed : Z;
  window_start : option Z;
  window_deadline : option Z
}.

(** Modelled from the spec: the missing constructor; a fresh tracker has
    "consumed=0, window not yet started". *)
Definition __init__ (limit time_period : Z) (_cooldown : positive) : t :=
  mk limit time_period _cooldown 0 None None.

(** Modelled from the spec: the missing attribute [current] read by
    [remaining_calls], the spec's "limit - consumed". *)
Definition current (b : t) : Z := limit b - consumed b.

(** Modelled from the spec: the window has rolled over, "current
    wall-clock time >= window_deadline". A window that has not started is
    not over. *)
Definition elapsed (now : Z) (b : t) : bool :=
  match window_deadline b with
  | Some deadline => deadline <=? now
  | None => false
  end.

(** Modelled from the spec: the missing property [has_cooldown],
    "true iff consumed > 0 within a still-valid window". *)
Definition has_cooldown (now : Z) (b : t) : bool :=
  (0 <? consumed b) && negb (elapsed now b).

(** Modelled from the spec: the roll-over, "reset consumed=0 and
    recompute window_start=now, window_deadline=now+time_period". *)
Definition reset (now : Z) (b : t) : t :=
  mk (limit b) (time_period b) (_cooldown b) 0
     (Some now) (Some (now + time_period b)).

(** Modelled from the spec: "retry_after = window_deadline - now". *)
Definition retry_after (now : Z) (b : t) : Z :=
  match window_deadline b with
  | Some deadline => deadline - now
  | None => 0
  end.

(** Modelled from the spec: the missing [__aenter__], the spec's
    [acquire()]: "if current wall-clock time >= window_deadline, reset
    consumed=0 and recompute window_start=now,
    window_deadline=now+time_period before checking. If consumed <
    limit: increment consumed; succeed. Else: fail with a RateLimited
    signal carrying retry_after = window_deadline - now". A window that
    has not started yet starts at the first acquisition. The source's
    coordinator lets the tracker's exception through unchanged, so the
    failure raised here is the caller-visible [CallableOnCooldown]. *)
Definition __aenter__ (now : Z) (b : t) : outcome unit * t :=
  let b :=
    match window_deadline b with
    | None => reset now b
    | Some _ => if elapsed now b then reset now b else b
    end in
  if consumed b <? limit b
  then (Ok tt, mk (limit b) (time_period b) (_cooldown b) (consumed b + 1)
                  (window_start b) (window_deadline b))
  else (Raise (CallableOnCooldown (retry_after now b)), b).

End CooldownTimesPer.

(** ** The coordinator object *)

(** The attributes [__init__] sets, and [self] for the identity of the
    object (what a tracker's back-reference points to). [loop] and
    [_clean_task] are handles on the event loop; the task's body is
    [_keep_buckets_clear] below. *)
Record Cooldown : Type := mkCooldown {
  self : positive;
  limit : Z;
  time_period : Z;
  cooldown_id : option value;
  _func : option Callable;
  _bucket : CooldownBucketProtocol;
  pending_reset : bool;
  _last_bucket : bucket_ref;
  _cache : gmap bucket_ref CooldownTimesPer.t;
  _cache_clean_eagerness : Z
}.

Definition set_cache (f : gmap bucket_ref CooldownTimesPer.t ->
                          gmap bucket_ref CooldownTimesPer.t)
  (s : Cooldown) : Cooldown :=
  mkCooldown (self s) (limit s) (time_period s) (cooldown_id s) (_func s)
             (_bucket s) (pending_reset s) (_last_bucket s) (f (_cache s))
             (_cache_clean_eagerness s).

Definition set_last_bucket (b : bucket_ref) (s : Cooldown) : Cooldown :=
  mkCooldown (self s) (limit s) (time_period s) (cooldown_id s) (_func s)
             (_bucket s) (pending_reset s) b (_cache s)
             (_cache_clean_eagerness s).

Definition set_func (f : option Callable) (s : Cooldown) : Cooldown :=
  mkCooldown (self s) (limit s) (time_period s) (cooldown_id s) f
             (_bucket s) (pending_reset s) (_last_bucket s) (_cache s)
             (_cache_clean_eagerness s).

(** ** Methods: state and exceptions *)

Definition M (A : Type) : Type := Cooldown -> outcome A * Cooldown.

#[global] Instance M_ret : MRet M := fun A a s => (Ok a, s).

#[global] Instance M_bind : MBind M := fun A B f m s =>
  match m s with
  | (Ok a, s') => f a s'
  | (Raise e, s') => (Raise e, s')
  end.

Definition raise {A : Type} (e : exn) : M A := fun s => (Raise e, s).
Definition get : M Cooldown := fun s => (Ok s, s).
Definition modify (f : Cooldown -> Cooldown) : M unit := fun s => (Ok tt, f s).
Definition lift {A : Type} (o : outcome A) : M A := fun s => (o, s).

(** [try: body / except E: handler]. *)
Definition try_except {A : Type} (body : M A) (caught : exn -> bool)
  (handler : M A) : M A := fun s =>
  match body s with
  | (Raise e, s') => if caught e then handler s' else (Raise e, s')
  | r => r
  end.

Definition is_NonExistent (e : exn) : bool :=
  match e with NonExistent => true | _ => false end.

(** ** [Cooldown.__init__]

    [running_loop] says whether an event loop is running:
    [asyncio.create_task] raises [RuntimeError] without one. [self] is the
    identity of the new object. [bucket or CooldownBucket.all] replaces a
    missing strategy by [all]. Neither [limit] nor [time_period] is
    examined. *)
Definition __init__ (running_loop : bool) (self : positive)
  (limit time_period : Z) (bucket : option CooldownBucketProtocol)
  (func : option Callable) (cooldown_id : option value) : outcome Cooldown :=
  let bucket := default CooldownBucket_all bucket in
  let obj := mkCooldown self limit time_period cooldown_id func bucket
                        false None ∅ 250 in
  if running_loop then Ok obj
  else Raise (RuntimeError "no running event loop").

(** ** [Cooldown._get_cooldown_for_bucket] *)
Definition _get_cooldown_for_bucket (bucket : bucket_ref)
  (raise_on_create : bool) : M CooldownTimesPer.t :=
  s ← get;
  match _cache s !! bucket with
  | Some b => mret b
  | None =>
      (* except KeyError *)
      if raise_on_create then raise NonExistent
      else
        let _bucket :=
          CooldownTimesPer.__init__ (limit s) (time_period s) (self s) in
        _ ← modify (set_cache (insert bucket _bucket));
        mret _bucket
  end.

(** ** [Cooldown.get_bucket] *)
Definition get_bucket (args : pyargs) (kwargs : pykwargs)
  : M _HashableArguments :=
  s ← get;
  match _bucket s with
  | CooldownBucket_all =>
      let data := CooldownBucket.process_all args kwargs in
      mret (HashableArguments data.1 data.2)
  | CooldownBucket_args =>
      let data := CooldownBucket.process_args args kwargs in
      mret (HashableArguments data ∅)
  | CooldownBucket_kwargs =>
      let data := CooldownBucket.process_kwargs args kwargs in
      mret (HashableArguments [] data)
  | CustomBucket process =>
      data ← lift (process args kwargs);
      mret (HashableArguments [data] ∅)
  end.

(** ** [Cooldown.__call__], [__aenter__], [__aexit__] *)
Definition __call__ (args : pyargs) (kwargs : pykwargs) : M unit :=
  b ← get_bucket args kwargs;
  modify (set_last_bucket (Some b)).

(** [async with bucket: return self]: the tracker found or created for
    [self._last_bucket] is acquired. The tracker is the object the cache
    holds, so what the acquisition changes in it is seen through the
    cache; an over-limit failure leaves the method through the [async
    with]. *)
Definition __aenter__ (now : Z) : M unit :=
  s ← get;
  bucket ← _get_cooldown_for_bucket (_last_bucket s) false;
  let '(r, bucket') := CooldownTimesPer.__aenter__ now bucket in
  _ ← modify (set_cache (insert (_last_bucket s) bucket'));
  lift r.

Definition __aexit__ : M unit := mret tt.

(** ** [Cooldown.clear]

    [depth] is the number of frames the interpreter still allows
    ([sys.getrecursionlimit] less the frames in use): a call that finds
    none left raises [RecursionError].  [evict] is the [try] block: the
    [KeyError] of a missing key is swallowed. [clear_loop] is the
    [for bucket in list(self._cache.keys())] loop over the snapshot
    [keys]; it returns what the loop variable [bucket], which is the
    parameter of [clear], is bound to afterwards. *)
Definition evict (now : Z) (bucket : bucket_ref) (force_evict : bool)
  : M unit :=
  s ← get;
  match _cache s !! bucket with
  | Some _bucket =>
      if negb (CooldownTimesPer.has_cooldown now _bucket) || force_evict
      then modify (set_cache (delete bucket))
      else mret tt
  | None => mret tt
  end.

Fixpoint clear_loop (clear_rec : bucket_ref -> M unit)
  (keys : list bucket_ref) (bucket : bucket_ref) : M bucket_ref :=
  match keys with
  | [] => mret bucket
  | k :: keys' => _ ← clear_rec k; clear_loop clear_rec keys' k
  end.

Fixpoint clear (depth : nat) (now : Z) (bucket : bucket_ref)
  (force_evict : bool) : M unit :=
  match depth with
  | O => raise RecursionError
  | S depth' =>
      bucket ←
        (if negb (truthy bucket)
         then
           s ← get;
           clear_loop (fun b => clear depth' now b force_evict)
                      (fst <$> map_to_list (_cache s)) bucket
         else mret bucket);
      evict now bucket force_evict
  end.

(** ** [Cooldown._keep_buckets_clear]

    The body of the background task: [while True: self.clear(); await
    asyncio.sleep(...)]. [wakeups] are the times at which the loop body
    runs, for as long as the task is observed; an exception ends the
    task. *)
Fixpoint _keep_buckets_clear (depth : nat) (wakeups : list Z) : M unit :=
  match wakeups with
  | [] => mret tt
  | now :: wakeups' =>
      _ ← clear depth now None false;
      _keep_buckets_clear depth wakeups'
  end.

(** ** [Cooldown.remaining_calls] *)
Definition remaining_calls (args : pyargs) (kwargs : pykwargs) : M Z :=
  bucket ← get_bucket args kwargs;
  try_except
    (cooldown_times_per ← _get_cooldown_for_bucket (Some bucket) true;
     mret (CooldownTimesPer.current cooldown_times_per))
    is_NonExistent
    (s ← get; mret (limit s)).

(** ** The decorator [cooldown]

    [cooldown(limit, time_period, bucket, check, cooldown_id=...)] builds
    the coordinator and returns [decorator]; [decorator func] returns the
    wrapper [inner]. *)

(** [async with cm: body]: [__aexit__] runs whether [body] returns or
    raises and, returning [None], lets the exception through. *)
Definition async_with {A : Type} (aenter aexit : M unit) (body : M A)
  : M A := fun s =>
  match aenter s with
  | (Raise e, s1) => (Raise e, s1)
  | (Ok _, s1) =>
      let '(r, s2) := body s1 in
      let '(_, s3) := aexit s2 in
      (r, s3)
  end.

Definition inner (check func : Callable) (now : Z)
  (args : pyargs) (kwargs : pykwargs) : M value :=
  use_cooldown ← lift (maybe_coro check args kwargs);
  if negb (truthy_value use_cooldown)
  then lift (maybe_coro func args kwargs)
  else
    _ ← __call__ args kwargs;
    result ← async_with (__aenter__ now) __aexit__
               (lift (call func args kwargs));
    mret result.

(** [decorator] returns [func], whose [_cooldowns] now lists this
    coordinator too, and the wrapper. [self._func] refers to that same
    function object, so it is stored as it is after the update. *)
Definition decorator (check func : Callable)
  : M (Callable * (Z -> pyargs -> pykwargs -> M value)) :=
  if negb (iscoroutinefunction func)
  then raise (RuntimeError "Expected `func` to be a coroutine")
  else
    s ← get;
    let attached_cooldowns := _cooldowns func ++ [self s] in
    let func :=
      mkCallable (iscoroutinefunction func) (call func) attached_cooldowns in
    _ ← modify (set_func (Some func));
    mret (func, inner check func).

Definition cooldown (running_loop : bool) (self : positive)
  (limit time_period : Z) (bucket : CooldownBucketProtocol)
  (check : Callable) (cooldown_id : option value)
  : outcome (Cooldown *
             (Callable -> M (Callable * (Z -> pyargs -> pykwargs -> M value)))) :=
  match __init__ running_loop self limit time_period (Some bucket) None
                 cooldown_id with
  | Ok _cooldown => Ok (_cooldown, decorator check)
  | Raise e => Raise e
  end.

(** The default [check]: [lambda *args, **kwargs: True]. *)
Definition default_check : Callable :=
  mkCallable false (fun _ _ => Ok (VInt 1)) [].

(** ** The properties [Cooldown.bucket] and [Cooldown.func]

    Read-only views of [_bucket] and [_func]; they are kept in a module of
    their own, as [bucket] and [func] also name parameters of the
    methods. *)
Module CooldownProperty.
Definition bucket (s : Cooldown) : CooldownBucketProtocol := _bucket s.

Definition func (s : Cooldown) : option Callable := _func s.
End CooldownProperty.

(** * Vocabulary of the properties *)

Ltac run :=
  unfold mbind, M_bind, mret, M_ret, get, modify, raise, lift, try_except
    in *; simpl in *.

(** ** Eviction *)

(** What the [try] block of [clear] does to the cache. *)
Definition evicted (now : Z) (force_evict : bool) (bucket : bucket_ref)
  (c : gmap bucket_ref CooldownTimesPer.t) : gmap bucket_ref CooldownTimesPer.t :=
  match c !! bucket with
  | Some b =>
      if negb (CooldownTimesPer.has_cooldown now b) || force_evict
      then delete bucket c else c
  | None => c
  end.

(** The per-key rule: an entry stays when its tracker has an active
    cooldown and eviction is not forced. *)
Definition survives (now : Z) (force_evict : bool) (b : CooldownTimesPer.t)
  : option CooldownTimesPer.t :=
  if negb (CooldownTimesPer.has_cooldown now b) || force_evict
  then None else Some b.

(** [evolves now force_evict s s']: [s'] differs from [s] in the cache
    only, holds no entry that [s] did not hold, and still holds every
    entry of [s] that the per-key rule keeps. *)
Definition evolves (now : Z) (force_evict : bool) (s s' : Cooldown) : Prop :=
  s' = set_cache (fun _ => _cache s') s
  ∧ (forall k b, _cache s' !! k = Some b -> _cache s !! k = Some b)
  ∧ (forall k b, _cache s !! k = Some b ->
       survives now force_evict b = Some b -> _cache s' !! k = Some b).

(** ** Ownership of the cached trackers *)

(** The tracker [b] carries the limit and the window length of the
    coordinator [s] and refers back to it. *)
Definition owned_by (s : Cooldown) (b : CooldownTimesPer.t) : bool :=
  (CooldownTimesPer.limit b =? limit s)
  && (CooldownTimesPer.time_period b =? time_period s)
  && Pos.eqb (CooldownTimesPer._cooldown b) (self s).

(** Every tracker in the cache of [s] is one of [s]. *)
Definition cache_owned (s : Cooldown) : Prop :=
  map_Forall (fun _ b => owned_by s b = true) (_cache s).

(** [same_parameters s s']: the identity, the limit and the window of the
    coordinator are those of [s]. *)
Definition same_parameters (s s' : Cooldown) : Prop :=
  self s' = self s ∧ limit s' = limit s ∧ time_period s' = time_period s.

(** Going from [s] to [s'] keeps the cache owned and the parameters. *)
Definition keeps_ownership (s s' : Cooldown) : Prop :=
  cache_owned s -> cache_owned s' ∧ same_parameters s s'.

(** The operations of a coordinator: its methods, the cycles of its
    background task, and what the decorator and the wrapper do to it. *)
Inductive operation : Type :=
  | Op__call__ (args : pyargs) (kwargs : pykwargs)
  | Op__aenter__ (now : Z)
  | Op__aexit__
  | Op_get_cooldown_for_bucket (bucket : bucket_ref) (raise_on_create : bool)
  | Op_get_bucket (args : pyargs) (kwargs : pykwargs)
  | Op_keep_buckets_clear (depth : nat) (wakeups : list Z)
  | Op_clear (depth : nat) (now : Z) (bucket : bucket_ref) (force_evict : bool)
  | Op_remaining_calls (args : pyargs) (kwargs : pykwargs)
  | Op_decorator (check func : Callable)
  | Op_inner (check func : Callable) (now : Z) (args : pyargs)
             (kwargs : pykwargs).

(** The coordinator after an operation (whether it returned or raised). *)
Definition perform (s : Cooldown) (op : operation) : Cooldown :=
  match op with
  | Op__call__ args kwargs => (__call__ args kwargs s).2
  | Op__aenter__ now => (__aenter__ now s).2
  | Op__aexit__ => (__aexit__ s).2
  | Op_get_cooldown_for_bucket bucket raise_on_create =>
      (_get_cooldown_for_bucket bucket raise_on_create s).2
  | Op_get_bucket args kwargs => (get_bucket args kwargs s).2
  | Op_keep_buckets_clear depth wakeups =>
      (_keep_buckets_clear depth wakeups s).2
  | Op_clear depth now bucket force_evict =>
      (clear depth now bucket force_evict s).2
  | Op_remaining_calls args kwargs => (remaining_calls args kwargs s).2
  | Op_decorator check func => (decorator check func s).2
  | Op_inner check func now args kwargs =>
      (inner check func now args kwargs s).2
  end.

(** ** Sequences of calls *)

(** A call of the wrapper: when it is made and with which arguments. *)
Record invocation : Type := mkInvocation {
  inv_now : Z;
  inv_args : pyargs;
  inv_kwargs : pykwargs
}.

(** The wrapper [inner] run on a call. *)
Definition invoke (check func : Callable) (s : Cooldown) (i : invocation)
  : outcome value * Cooldown :=
  inner check func (inv_now i) (inv_args i) (inv_kwargs i) s.

(** The coordinator after a sequence of calls, made one after the other. *)
Definition after (check func : Callable) (s : Cooldown)
  (calls : list invocation) : Cooldown :=
  foldl (fun s i => (invoke check func s i).2) s calls.

(** [hits check s k i]: the call [i] takes the cooldown path ([check] is
    truthy) and its arguments resolve to the bucket [k]. *)
Definition hits (check : Callable) (s : Cooldown) (k : _HashableArguments)
  (i : invocation) : bool :=
  match call check (inv_args i) (inv_kwargs i),
        (get_bucket (inv_args i) (inv_kwargs i) s).1 with
  | Ok v, Ok k' => truthy_value v && bool_decide (k' = k)
  | _, _ => false
  end.


(** A window of the bucket [k] opens with an acquisition at [t0]: the
    bucket is not tracked, or its tracker (one of this coordinator) has no
    window yet or one that is over at [t0]. *)
Definition window_opens_at (s : Cooldown) (k : _HashableArguments) (t0 : Z)
  : bool :=
  match _cache s !! Some k with
  | None => true
  | Some b =>
      owned_by s b
      && match CooldownTimesPer.window_deadline b with
         | None => true
         | Some deadline => deadline <=? t0
         end
  end.

(** The calls that hit the bucket fall in a single window: the first of
    them opens it and the others are made before it rolls over. *)
Definition single_window (hit : invocation -> bool) (s : Cooldown)
  (k : _HashableArguments) (calls : list invocation) : bool :=
  match List.filter hit calls with
  | [] => true
  | i0 :: later =>
      window_opens_at s k (inv_now i0)
      && forallb (fun i => inv_now i <? inv_now i0 + time_period s) later
  end.

(** The tracker of a bucket after one more acquisition. *)
Definition acquired (s : Cooldown) (now : Z) (o : option CooldownTimesPer.t)
  : CooldownTimesPer.t :=
  (CooldownTimesPer.__aenter__ now
     (default (CooldownTimesPer.__init__ (limit s) (time_period s) (self s))
              o)).2.

(** A tracker in the window opened at [t0], after [n] acquisitions. *)
Definition in_window (L tp t0 n : Z) (b : CooldownTimesPer.t) : Prop :=
  CooldownTimesPer.limit b = L
  ∧ CooldownTimesPer.time_period b = tp
  ∧ CooldownTimesPer.window_deadline b = Some (t0 + tp)
  ∧ CooldownTimesPer.consumed b = Z.min n (Z.max L 0).

(** [same_config s s']: the strategy and the parameters of the coordinator
    are those of [s]. *)
Definition same_config (s s' : Cooldown) : Prop :=
  _bucket s' = _bucket s ∧ self s' = self s ∧ limit s' = limit s
  ∧ time_period s' = time_period s.

(** ** Examples *)

(** A coordinator with limit 2 and a window of 10 ticks, under the
    strategy [all]. *)
Definition example_cooldown : Cooldown :=
  mkCooldown 1 2 10 None None CooldownBucket_all false None ∅ 250.

(** A coroutine function that returns its first argument. *)
Definition example_func : Callable :=
  mkCallable true (fun args _ => Ok (default VNone (head args))) [].

(** The coordinator after one call [f(1)] of the wrapper at time 0. *)
Definition example_called : Cooldown :=
  (inner default_check example_func 0 [VInt 1] ∅ example_cooldown).2.

(** A coordinator (limit 1, window of 10 ticks) entered with
    [async with cooldown:] at time 0 before any [cooldown(...)] call:
    [_last_bucket] is still [None], and the tracker is cached under the
    key [None]. *)
Definition entered_without_call : Cooldown :=
  (__aenter__ 0
     (mkCooldown 1 1 10 None None CooldownBucket_all false None ∅ 250)).2.

(** A [check] that always bypasses the cooldown, and a function that is
    not a coroutine function. *)
Definition never_check : Callable :=
  mkCallable false (fun _ _ => Ok (VInt 0)) [].

Definition sync_func : Callable :=
  mkCallable false (fun _ _ => Ok VNone) [].

(** A [check] that raises, a custom strategy that raises, and a coroutine
    function that raises. *)
Definition raising_check : Callable :=
  mkCallable false (fun _ _ => Raise (UserError (VStr "check"))) [].

Definition raising_bucket : CooldownBucketProtocol :=
  CustomBucket (fun _ _ => Raise (UserError (VStr "bucket"))).


(** * Properties *)

(** ** Eviction *)

Lemma set_cache_id s : set_cache (fun c => c) s = s.
Proof. by destruct s. Qed.

Lemma evict_eq now bucket force_evict s :
  evict now bucket force_evict s
  = (Ok tt, set_cache (evicted now force_evict bucket) s).
Proof.
  unfold evict. run. destruct s as [? ? ? ? ? ? ? ? c ?].
  unfold set_cache, evicted; simpl.
  destruct (c !! bucket) as [b|]; [|done].
  by destruct (negb _ || _).
Qed.

Lemma evicted_lookup now force_evict bucket c k :
  evicted now force_evict bucket c !! k
  = if decide (k = bucket) then c !! k ≫= survives now force_evict
    else c !! k.
Proof.
  unfold evicted, survives. case_decide as Hk.
  - subst k. destruct (c !! bucket) as [b|] eqn:Hb; simpl; [|done].
    destruct (negb _ || _); [by rewrite lookup_delete_eq | done].
  - destruct (c !! bucket) as [b|]; [|done].
    destruct (negb _ || _); [by rewrite lookup_delete_ne | done].
Qed.

Lemma survives_idem now force_evict (o : option CooldownTimesPer.t) :
  (o ≫= survives now force_evict) ≫= survives now force_evict
  = o ≫= survives now force_evict.
Proof.
  destruct o as [b|]; [|done]. simpl. unfold survives.
  destruct (negb _ || _) eqn:E; simpl; [done | by rewrite E].
Qed.

Lemma foldl_evicted_lookup now force_evict ks c k :
  foldl (fun c b => evicted now force_evict b c) c ks !! k
  = if decide (k ∈ ks) then c !! k ≫= survives now force_evict else c !! k.
Proof.
  revert c. induction ks as [|b ks IH]; intros c; cbn [foldl].
  { case_decide as H; [by apply elem_of_nil in H | done]. }
  rewrite IH, evicted_lookup.
  destruct (decide (k = b)) as [->|Hne].
  - rewrite (decide_True (P := b ∈ b :: ks)) by apply list_elem_of_here.
    case_decide; [by rewrite survives_idem | done].
  - destruct (decide (k ∈ ks)) as [Hin|Hin].
    + rewrite (decide_True (P := k ∈ b :: ks)); [done|].
      by apply list_elem_of_further.
    + rewrite (decide_False (P := k ∈ b :: ks)); [done|].
      rewrite elem_of_cons. by intros [?|?].
Qed.

(** With a key that is an object, [clear] is the [try] block alone. *)
Lemma clear_key depth now k force_evict s :
  clear (S depth) now (Some k) force_evict s
  = (Ok tt, set_cache (evicted now force_evict (Some k)) s).
Proof. simpl. run. apply evict_eq. Qed.

Lemma clear_loop_keys depth now force_evict ks bucket s :
  Forall (fun k => truthy k = true) ks ->
  clear_loop (fun b => clear (S depth) now b force_evict) ks bucket s
  = (Ok (default bucket (last ks)),
     set_cache (fun c => foldl (fun c b => evicted now force_evict b c) c ks) s).
Proof.
  revert bucket s. induction ks as [|k ks IH]; intros bucket s Hks.
  - simpl. run. by rewrite set_cache_id.
  - inversion Hks as [|? ? Hk Hks']; subst.
    destruct k as [k|]; [|done].
    cbn [clear_loop]. unfold mbind at 1, M_bind at 1.
    rewrite clear_key. rewrite IH by done.
    rewrite last_cons. by destruct (last ks).
Qed.

(** The snapshot [list(self._cache.keys())] holds the keys of the cache. *)
Lemma elem_of_keys (c : gmap bucket_ref CooldownTimesPer.t) k :
  k ∈ (fst <$> map_to_list c) ↔ is_Some (c !! k).
Proof.
  rewrite list_elem_of_fmap. split.
  - intros [[k' b] [-> Hin]]. apply elem_of_map_to_list in Hin. by exists b.
  - intros [b Hb]. exists (k, b). split; [done|].
    by apply elem_of_map_to_list.
Qed.

Lemma clear_S depth now bucket force_evict s :
  clear (S depth) now bucket force_evict s
  = match (if negb (truthy bucket)
           then clear_loop (fun b => clear depth now b force_evict)
                           (fst <$> map_to_list (_cache s)) bucket s
           else (Ok bucket, s)) with
    | (Ok bucket, s') => evict now bucket force_evict s'
    | (Raise e, s') => (Raise e, s')
    end.
Proof. simpl. run. by destruct (truthy bucket). Qed.

(** [clear()] when no entry is stored under [None]: with two frames
    available, every entry of the cache is put through the per-key rule. *)
Lemma clear_all depth now force_evict s :
  _cache s !! None = None ->
  clear (S (S depth)) now None force_evict s
  = (Ok tt, set_cache (omap (survives now force_evict)) s).
Proof.
  intros HNone. rewrite clear_S. cbn [truthy negb].
  rewrite clear_loop_keys.
  2:{ apply Forall_forall. intros [k|] Hk; [done|].
      apply elem_of_keys in Hk. rewrite HNone in Hk. by destruct Hk. }
  rewrite evict_eq. f_equal.
  destruct s as [? ? ? ? ? ? ? ? c ?]. unfold set_cache; simpl in *. f_equal.
  apply map_eq. intros k.
  rewrite evicted_lookup, foldl_evicted_lookup, lookup_omap.
  assert (Hfold :
    (if decide (k ∈ (fst <$> map_to_list c))
     then c !! k ≫= survives now force_evict else c !! k)
    = c !! k ≫= survives now force_evict).
  { case_decide as Hin; [done|].
    rewrite elem_of_keys in Hin. apply eq_None_not_Some in Hin.
    by rewrite Hin. }
  rewrite Hfold.
  destruct (decide (k = default None (last (fst <$> map_to_list c))));
    [apply survives_idem | done].
Qed.

(** Every failure of [clear] is the interpreter's [RecursionError]. *)
Lemma clear_raises depth now bucket force_evict s e :
  (clear depth now bucket force_evict s).1 = Raise e -> e = RecursionError.
Proof.
  revert bucket s. induction depth as [|depth IH]; intros bucket s.
  { simpl. by intros [= <-]. }
  rewrite clear_S.
  destruct bucket as [k|]; cbn [truthy negb].
  { by rewrite evict_eq. }
  generalize (fst <$> map_to_list (_cache s)) as ks.
  generalize (@None _HashableArguments) at 1 as b0.
  intros b0 ks. revert b0 s. induction ks as [|k ks IHks]; intros b0 s.
  { simpl. run. by rewrite evict_eq. }
  cbn [clear_loop]. unfold mbind at 1, M_bind at 1.
  destruct (clear depth now k force_evict s) as [[[]|e'] s'] eqn:Hk.
  - apply IHks.
  - simpl. intros [= <-]. apply (IH k s). by rewrite Hk.
Qed.

(** A call on a key that is an object touches no other entry. *)
Lemma clear_key_other depth now k force_evict s k' :
  k' ≠ Some k ->
  _cache (clear depth now (Some k) force_evict s).2 !! k' = _cache s !! k'.
Proof.
  intros Hne. destruct depth as [|depth]; [done|].
  rewrite clear_key. simpl. rewrite evicted_lookup. by rewrite decide_False.
Qed.

Lemma clear_loop_None_cached depth now force_evict :
  (forall s, is_Some (_cache s !! None) ->
     (clear depth now None force_evict s).1 = Raise RecursionError) ->
  forall ks bucket s,
    None ∈ ks -> is_Some (_cache s !! None) ->
    (clear_loop (fun b => clear depth now b force_evict) ks bucket s).1
    = Raise RecursionError.
Proof.
  intros IH ks. induction ks as [|k ks IHks]; intros bucket s Hin HNone.
  { by apply elem_of_nil in Hin. }
  cbn [clear_loop]. unfold mbind at 1, M_bind at 1.
  destruct k as [k|].
  - pose proof (clear_key_other depth now k force_evict s None) as Hother.
    pose proof (clear_raises depth now (Some k) force_evict s) as Hraise.
    destruct (clear depth now (Some k) force_evict s) as [[[]|e] s'];
      simpl in *.
    + apply IHks.
      * apply elem_of_cons in Hin as [?|?]; [done | done].
      * by rewrite Hother.
    + by rewrite (Hraise e eq_refl).
  - specialize (IH s HNone).
    destruct (clear depth now None force_evict s) as [[[]|e] s'];
      simpl in *; [discriminate IH | by injection IH as ->].
Qed.

(** [clear()] with an entry stored under [None]: the loop over the
    snapshot reaches the key [None] and calls [clear(None)] again, which
    loops over the same snapshot; whatever the number of frames, the call
    ends in [RecursionError]. *)
Lemma clear_None_cached depth now force_evict s :
  is_Some (_cache s !! None) ->
  (clear depth now None force_evict s).1 = Raise RecursionError.
Proof.
  revert s. induction depth as [|depth IH]; intros s HNone; [done|].
  rewrite clear_S. cbn [truthy negb].
  pose proof (clear_loop_None_cached depth now force_evict IH
                (fst <$> map_to_list (_cache s)) None s) as Hloop.
  destruct (clear_loop _ _ _ s) as [[b|e] s']; simpl in *.
  - exfalso. assert (@Ok bucket_ref b = Raise RecursionError) as [=].
    apply Hloop; [by apply elem_of_keys | done].
  - f_equal. assert (@Raise bucket_ref e = Raise RecursionError) as [=]; [|done].
    apply Hloop; [by apply elem_of_keys | done].
Qed.

Lemma evolves_refl now force_evict s : evolves now force_evict s s.
Proof. split; [by destruct s | by split]. Qed.

Lemma evolves_trans now force_evict s1 s2 s3 :
  evolves now force_evict s1 s2 -> evolves now force_evict s2 s3 ->
  evolves now force_evict s1 s3.
Proof.
  intros (E1 & S1 & K1) (E2 & S2 & K2). split; [|split].
  - rewrite E2 at 1. rewrite E1 at 1. by destruct s1.
  - eauto.
  - eauto.
Qed.

Lemma evolves_evicted now force_evict bucket s :
  evolves now force_evict s (set_cache (evicted now force_evict bucket) s).
Proof.
  split; [by destruct s|]. simpl. split.
  - intros k b. rewrite evicted_lookup. case_decide; [|done].
    destruct (_cache s !! k) as [b'|]; simpl; [|done].
    unfold survives. destruct (negb _ || _); [done|]. done.
  - intros k b Hk Hb. rewrite evicted_lookup. case_decide; [|done].
    by rewrite Hk.
Qed.

Lemma clear_evolves depth now bucket force_evict s :
  evolves now force_evict s (clear depth now bucket force_evict s).2.
Proof.
  revert bucket s. induction depth as [|depth IH]; intros bucket s.
  { apply evolves_refl. }
  rewrite clear_S.
  assert (Hloop : forall ks b0 s,
    evolves now force_evict s
      (clear_loop (fun b => clear depth now b force_evict) ks b0 s).2).
  { clear s bucket. intros ks. induction ks as [|k ks IHks]; intros b0 s.
    { apply evolves_refl. }
    cbn [clear_loop]. unfold mbind at 1, M_bind at 1.
    specialize (IH k s).
    destruct (clear depth now k force_evict s) as [[[]|e] s']; simpl in *.
    - eapply evolves_trans; [exact IH | apply IHks].
    - exact IH. }
  destruct (truthy bucket); cbn [negb].
  - rewrite evict_eq. apply evolves_evicted.
  - specialize (Hloop (fst <$> map_to_list (_cache s)) bucket s).
    destruct (clear_loop _ _ _ s) as [[b|e] s']; simpl in *; [|done].
    rewrite evict_eq. simpl.
    eapply evolves_trans; [exact Hloop | apply evolves_evicted].
Qed.

(** ** Per-key and global eviction *)

(** The per-key rule of [clear(key)] for a cached key that is an object:
    without [force_evict] the entry is left as it is when its tracker has
    an active cooldown and removed otherwise; with [force_evict] it is
    removed; nothing else changes. *)
Lemma clear_key_rule depth now k force_evict s b :
  _cache s !! Some k = Some b ->
  clear (S depth) now (Some k) force_evict s
  = (Ok tt,
     if CooldownTimesPer.has_cooldown now b && negb force_evict
     then s else set_cache (delete (Some k)) s).
Proof.
  intros Hb. rewrite clear_key. f_equal.
  destruct s as [? ? ? ? ? ? ? ? c ?]; simpl in *.
  unfold set_cache, evicted; simpl. rewrite Hb.
  by destruct (CooldownTimesPer.has_cooldown now b), force_evict.
Qed.

(** C3 (the code departs from the claim). [clear()] is claimed to apply
    the per-key rule to every entry present at the start of the call. On a
    coordinator whose cache holds an entry under [None] (here the one made
    by [async with cooldown:] at time 0) the loop over the snapshot calls
    [clear(None)] for that key, which is the global clear again: for every
    number of frames the interpreter allows, and with or without
    [force_evict], the call ends in [RecursionError] and the entry has been
    neither examined nor removed. *)
Theorem clear_recurses_on_None_entry :
  forall (depth : nat) (now : Z) (force_evict : bool),
    __init__ true 1 1 10 None None None
    = Ok (mkCooldown 1 1 10 None None CooldownBucket_all false None ∅ 250)
    ∧ _cache entered_without_call
      = {[ None := CooldownTimesPer.mk 1 10 1 1 (Some 0) (Some 10) ]}
    ∧ clear depth now None force_evict entered_without_call
      = (Raise RecursionError, entered_without_call).
Proof.
  intros depth now force_evict. split; [done|]. split; [done|].
  induction depth as [|depth IH]; [done|].
  rewrite clear_S. cbn [truthy negb].
  assert (Hkeys : fst <$> map_to_list (_cache entered_without_call) = [None])
    by (vm_compute; reflexivity).
  rewrite Hkeys. cbn [clear_loop].
  unfold mbind at 1, M_bind at 1. by rewrite IH.
Qed.

(** C10. [clear(key)] for a key that is not cached, with or without
    [force_evict]: no exception, and the coordinator is unchanged. *)
Theorem clear_absent_key_noop :
  forall (depth : nat) (now : Z) (k : _HashableArguments)
         (force_evict : bool) (s : Cooldown),
    _cache s !! Some k = None ->
    clear (S depth) now (Some k) force_evict s = (Ok tt, s).
Proof.
  intros depth now k force_evict s Hk. rewrite clear_key. f_equal.
  destruct s as [? ? ? ? ? ? ? ? c ?]; simpl in *.
  unfold set_cache, evicted; simpl. by rewrite Hk.
Qed.

Lemma clear_absent_key_noop_witness :
  clear 1 5 (Some (HashableArguments [VInt 2] ∅)) true example_called
  = (Ok tt, example_called).
Proof.
  apply (clear_absent_key_noop 0 5 (HashableArguments [VInt 2] ∅) true
           example_called).
  vm_compute. reflexivity.
Defined.

(** ** The background sweep *)

Lemma _keep_buckets_clear_cons depth now wakeups s :
  _keep_buckets_clear depth (now :: wakeups) s
  = match clear depth now None false s with
    | (Ok _, s') => _keep_buckets_clear depth wakeups s'
    | (Raise e, s') => (Raise e, s')
    end.
Proof. reflexivity. Qed.

Lemma survives_active now b :
  CooldownTimesPer.has_cooldown now b = true -> survives now false b = Some b.
Proof. intros H. unfold survives. by rewrite H. Qed.

(** C4. Each cycle of the sweep is the global [clear] with [force_evict]
    false (the first equation: a cycle at [now], then the later ones
    unless it raised); a tracker that reports an active cooldown at the
    time of a cycle is in the cache after that cycle, and one that reports
    it at every cycle is there after all of them. *)
Theorem sweep_keeps_active_trackers :
  forall (depth : nat) (now : Z) (wakeups : list Z) (s : Cooldown)
         (k : bucket_ref) (b : CooldownTimesPer.t),
    _cache s !! k = Some b ->
    forallb (fun t => CooldownTimesPer.has_cooldown t b) (now :: wakeups)
    = true ->
    _keep_buckets_clear depth (now :: wakeups) s
    = match clear depth now None false s with
      | (Ok _, s') => _keep_buckets_clear depth wakeups s'
      | (Raise e, s') => (Raise e, s')
      end
    ∧ _cache (clear depth now None false s).2 !! k = Some b
    ∧ _cache (_keep_buckets_clear depth (now :: wakeups) s).2 !! k = Some b.
Proof.
  intros depth now wakeups s k b Hk Hactive.
  split; [apply _keep_buckets_clear_cons|].
  assert (Hcycle : forall t s, _cache s !! k = Some b ->
            CooldownTimesPer.has_cooldown t b = true ->
            _cache (clear depth t None false s).2 !! k = Some b).
  { intros t s0 Hk0 Ht.
    destruct (clear_evolves depth t None false s0) as (_ & _ & Hkept).
    apply Hkept; [done | by apply survives_active]. }
  split.
  { apply Hcycle; [done|]. simpl in Hactive.
    by apply andb_prop in Hactive as [? _]. }
  revert s Hk. revert Hactive. generalize (now :: wakeups) as ts.
  intros ts. induction ts as [|t ts IH]; intros Hactive s Hk; [done|].
  simpl in Hactive. apply andb_prop in Hactive as [Ht Hts].
  rewrite _keep_buckets_clear_cons.
  specialize (Hcycle t s Hk Ht).
  destruct (clear depth t None false s) as [[[]|e] s']; simpl in *.
  - by apply IH.
  - done.
Qed.

Lemma sweep_keeps_active_trackers_witness :
  _keep_buckets_clear 1000 [3; 6] example_called
  = match clear 1000 3 None false example_called with
    | (Ok _, s') => _keep_buckets_clear 1000 [6] s'
    | (Raise e, s') => (Raise e, s')
    end
  ∧ _cache (clear 1000 3 None false example_called).2
      !! Some (HashableArguments [VInt 1] ∅)
    = Some (CooldownTimesPer.mk 2 10 1 1 (Some 0) (Some 10))
  ∧ _cache (_keep_buckets_clear 1000 [3; 6] example_called).2
      !! Some (HashableArguments [VInt 1] ∅)
    = Some (CooldownTimesPer.mk 2 10 1 1 (Some 0) (Some 10)).
Proof.
  apply (sweep_keeps_active_trackers 1000 3 [6] example_called
           (Some (HashableArguments [VInt 1] ∅))
           (CooldownTimesPer.mk 2 10 1 1 (Some 0) (Some 10))).
  - vm_compute. reflexivity.
  - vm_compute. reflexivity.
Defined.

(** ** Lookup, creation and introspection *)

Lemma _get_cooldown_for_bucket_cached bucket raise_on_create s b :
  _cache s !! bucket = Some b ->
  _get_cooldown_for_bucket bucket raise_on_create s = (Ok b, s).
Proof. intros Hb. unfold _get_cooldown_for_bucket. run. by rewrite Hb. Qed.

Lemma _get_cooldown_for_bucket_absent bucket s :
  _cache s !! bucket = None ->
  _get_cooldown_for_bucket bucket true s = (Raise NonExistent, s)
  ∧ _get_cooldown_for_bucket bucket false s
    = (Ok (CooldownTimesPer.__init__ (limit s) (time_period s) (self s)),
       set_cache
         (insert bucket
            (CooldownTimesPer.__init__ (limit s) (time_period s) (self s)))
         s).
Proof. intros Hb. unfold _get_cooldown_for_bucket. run. by rewrite Hb. Qed.

Lemma get_bucket_state args kwargs s : (get_bucket args kwargs s).2 = s.
Proof.
  unfold get_bucket. run. destruct (_bucket s) as [| | |process]; try done.
  by destruct (process args kwargs).
Qed.

Lemma remaining_calls_eq args kwargs s :
  remaining_calls args kwargs s
  = match (get_bucket args kwargs s).1 with
    | Ok bucket =>
        match _cache s !! Some bucket with
        | Some b => (Ok (CooldownTimesPer.current b), s)
        | None => (Ok (limit s), s)
        end
    | Raise e => (Raise e, s)
    end.
Proof.
  unfold remaining_calls. unfold mbind at 1, M_bind at 1.
  pose proof (get_bucket_state args kwargs s) as Hs.
  destruct (get_bucket args kwargs s) as [[bucket|e] s']; simpl in *; subst s';
    [|done].
  unfold try_except. unfold mbind at 1, M_bind at 1.
  destruct (_cache s !! Some bucket) as [b|] eqn:Hb.
  - by rewrite (_get_cooldown_for_bucket_cached _ _ _ b).
  - by rewrite (proj1 (_get_cooldown_for_bucket_absent _ _ Hb)).
Qed.

(** C8. With [raise_on_create=True] the lookup raises [NonExistent]
    exactly when the key has no entry (otherwise it returns the tracker)
    and the coordinator, its cache included, is as before; with
    [raise_on_create=False] it never raises: it returns the cached tracker,
    or a fresh tracker with nothing consumed and no window started, which
    it has stored under the key. [remaining_calls], the only caller that
    asks for the signal, lets no exception out except one raised while the
    bucket was resolved: the signal of the lookup stays inside. *)
Theorem _get_cooldown_for_bucket_spec :
  forall (bucket : bucket_ref) (s : Cooldown) (args : pyargs)
         (kwargs : pykwargs),
    match _cache s !! bucket with
    | Some b =>
        _get_cooldown_for_bucket bucket true s = (Ok b, s)
        ∧ _get_cooldown_for_bucket bucket false s = (Ok b, s)
    | None =>
        let fresh :=
          CooldownTimesPer.mk (limit s) (time_period s) (self s) 0 None None in
        _get_cooldown_for_bucket bucket true s = (Raise NonExistent, s)
        ∧ _get_cooldown_for_bucket bucket false s
          = (Ok fresh, set_cache (insert bucket fresh) s)
    end
    ∧ ((_get_cooldown_for_bucket bucket true s).1 = Raise NonExistent
       ↔ _cache s !! bucket = None)
    ∧ match (get_bucket args kwargs s).1 with
      | Ok _ => exists n, remaining_calls args kwargs s = (Ok n, s)
      | Raise e => remaining_calls args kwargs s = (Raise e, s)
      end.
Proof.
  intros bucket s args kwargs. split; [|split].
  - destruct (_cache s !! bucket) as [b|] eqn:Hb.
    + split; by apply _get_cooldown_for_bucket_cached.
    + by apply _get_cooldown_for_bucket_absent.
  - destruct (_cache s !! bucket) as [b|] eqn:Hb.
    + rewrite (_get_cooldown_for_bucket_cached _ _ _ b Hb). by split.
    + by rewrite (proj1 (_get_cooldown_for_bucket_absent _ _ Hb)).
  - rewrite remaining_calls_eq.
    destruct (get_bucket args kwargs s).1 as [k|e]; [|done].
    destruct (_cache s !! Some k); eauto.
Qed.

(** ** The ownership invariant of the cache *)

Lemma owned_by_spec s b :
  owned_by s b = true
  ↔ CooldownTimesPer.limit b = limit s
    ∧ CooldownTimesPer.time_period b = time_period s
    ∧ CooldownTimesPer._cooldown b = self s.
Proof.
  unfold owned_by. rewrite !andb_true_iff, !Z.eqb_eq, Pos.eqb_eq. tauto.
Qed.

(** C2. In a coordinator whose cached trackers are its own (every state
    the coordinator reaches), [remaining_calls] returns [limit] when the
    bucket the arguments resolve to has no tracker, and [limit - consumed]
    of the tracker when it has one; an exception of a custom strategy
    resolving the bucket is passed on. In every case the coordinator, its
    cache included, is as before. *)
Theorem remaining_calls_spec :
  forall (args : pyargs) (kwargs : pykwargs) (s : Cooldown),
    cache_owned s ->
    remaining_calls args kwargs s
    = match (get_bucket args kwargs s).1 with
      | Ok bucket =>
          match _cache s !! Some bucket with
          | Some b => (Ok (limit s - CooldownTimesPer.consumed b), s)
          | None => (Ok (limit s), s)
          end
      | Raise e => (Raise e, s)
      end.
Proof.
  intros args kwargs s Howned. rewrite remaining_calls_eq.
  destruct (get_bucket args kwargs s).1 as [bucket|e]; [|done].
  destruct (_cache s !! Some bucket) as [b|] eqn:Hb; [|done].
  apply Howned, owned_by_spec in Hb as (Hl & _ & _).
  unfold CooldownTimesPer.current. by rewrite Hl.
Qed.

Lemma remaining_calls_spec_witness :
  remaining_calls [VInt 1] ∅ example_called = (Ok 1, example_called)
  ∧ remaining_calls [VInt 2] ∅ example_called = (Ok 2, example_called).
Proof.
  assert (H : cache_owned example_called).
  { apply (bool_decide_unpack _). vm_compute. exact I. }
  split.
  - exact (remaining_calls_spec [VInt 1] ∅ example_called H).
  - exact (remaining_calls_spec [VInt 2] ∅ example_called H).
Defined.

(** ** Bucket resolution *)

(** C5. [get_bucket] leaves the coordinator as it is (so a second call
    sees the same strategy and gives the same answer). Under [all] the key
    is made of the positional and keyword arguments, under [args] of the
    positional ones, under [kwargs] of the keyword ones; two calls give
    equal keys exactly when they agree on those, so equal arguments give
    equal keys and arguments that differ there give different keys. *)
Theorem get_bucket_spec :
  forall (s : Cooldown) (args args' : pyargs) (kwargs kwargs' : pykwargs),
    (get_bucket args kwargs s).2 = s
    ∧ get_bucket args kwargs (get_bucket args kwargs s).2
      = get_bucket args kwargs s
    ∧ match _bucket s with
      | CooldownBucket_all =>
          get_bucket args kwargs s = (Ok (HashableArguments args kwargs), s)
          ∧ ((get_bucket args kwargs s).1 = (get_bucket args' kwargs' s).1
             ↔ args = args' ∧ kwargs = kwargs')
      | CooldownBucket_args =>
          get_bucket args kwargs s = (Ok (HashableArguments args ∅), s)
          ∧ ((get_bucket args kwargs s).1 = (get_bucket args' kwargs' s).1
             ↔ args = args')
      | CooldownBucket_kwargs =>
          get_bucket args kwargs s = (Ok (HashableArguments [] kwargs), s)
          ∧ ((get_bucket args kwargs s).1 = (get_bucket args' kwargs' s).1
             ↔ kwargs = kwargs')
      | CustomBucket process =>
          (get_bucket args kwargs s).1 = (get_bucket args' kwargs' s).1
          ↔ process args kwargs = process args' kwargs'
      end.
Proof.
  intros s args args' kwargs kwargs'.
  split; [apply get_bucket_state|]. split.
  { by rewrite get_bucket_state. }
  unfold get_bucket, CooldownBucket.process_all, CooldownBucket.process_args,
    CooldownBucket.process_kwargs. run.
  destruct (_bucket s) as [| | |process]; simpl.
  - split; [done|]. split; [by intros [= -> ->] | by intros [-> ->]].
  - split; [done|]. split; [by intros [= ->] | by intros ->].
  - split; [done|]. split; [by intros [= ->] | by intros ->].
  - destruct (process args kwargs) as [v|e],
             (process args' kwargs') as [v'|e']; simpl;
      split; intros H; by simplify_eq.
Qed.

(** ** The wrapper *)

(** C7. When [check] returns a falsy value, the wrapper returns what the
    wrapped callable returns (or raises what it raises) and the
    coordinator is as before: no bucket recorded, no tracker created or
    acquired, nothing consumed. *)
Theorem inner_bypass :
  forall (check func : Callable) (now : Z) (args : pyargs)
         (kwargs : pykwargs) (s : Cooldown) (use_cooldown : value),
    call check args kwargs = Ok use_cooldown ->
    truthy_value use_cooldown = false ->
    inner check func now args kwargs s = (call func args kwargs, s).
Proof.
  intros check func now args kwargs s v Hcheck Hv.
  unfold inner, maybe_coro. run. by rewrite Hcheck, Hv.
Qed.

Lemma inner_bypass_witness :
  inner never_check example_func 3 [VInt 1] ∅ example_called
  = (Ok (VInt 1), example_called).
Proof.
  apply (inner_bypass never_check example_func 3 [VInt 1] ∅ example_called
           (VInt 0)); reflexivity.
Defined.

(** ** Construction and wrapping *)

(** C6 as stated fails: with an event loop running, a coordinator with
    limit 0 and a window of -5 is constructed, directly and through the
    decorator factory, and nothing is raised. *)
Lemma nonpositive_parameters_accepted :
  ~ (exists e, __init__ true 1 0 (-5) None None None = Raise e)
  ∧ ~ (exists e, cooldown true 1 0 (-5) CooldownBucket_all default_check None
                 = Raise e)
  ∧ __init__ true 1 0 (-5) None None None
    = Ok (mkCooldown 1 0 (-5) None None CooldownBucket_all false None ∅ 250).
Proof.
  split; [|split].
  - by intros [e [=]].
  - by intros [e [=]].
  - reflexivity.
Qed.

(** C6 (amended). Wrapping a callable that is not a coroutine function
    raises [RuntimeError] when the decorator is applied, before any call,
    and leaves the coordinator as it was. The constructor examines neither
    the limit nor the window: with an event loop running it returns a
    coordinator holding the given values, whatever they are, with an empty
    cache. *)
Theorem configuration_errors :
  forall (check func : Callable) (s : Cooldown) (self : positive)
         (limit time_period : Z) (bucket : option CooldownBucketProtocol)
         (f : option Callable) (cooldown_id : option value),
    iscoroutinefunction func = false ->
    decorator check func s
    = (Raise (RuntimeError "Expected `func` to be a coroutine"), s)
    ∧ __init__ true self limit time_period bucket f cooldown_id
      = Ok (mkCooldown self limit time_period cooldown_id f
              (default CooldownBucket_all bucket) false None ∅ 250).
Proof.
  intros check func s self limit time_period bucket f cooldown_id Hsync.
  split; [|done]. unfold decorator. by rewrite Hsync.
Qed.

Lemma configuration_errors_witness :
  decorator default_check sync_func example_cooldown
  = (Raise (RuntimeError "Expected `func` to be a coroutine"),
     example_cooldown)
  ∧ __init__ true 1 (-3) 0 None None None
    = Ok (mkCooldown 1 (-3) 0 None None CooldownBucket_all false None ∅ 250).
Proof.
  apply (configuration_errors default_check sync_func example_cooldown
           1%positive (-3) 0 None None None).
  reflexivity.
Defined.

(** ** Acquisition through the coordinator *)

(** What [__aenter__] does: the tracker cached under [_last_bucket], or a
    fresh one, is acquired and is in the cache afterwards. *)
Lemma __aenter___eq now s :
  __aenter__ now s
  = let b := default (CooldownTimesPer.__init__ (limit s) (time_period s)
                        (self s))
                     (_cache s !! _last_bucket s) in
    ((CooldownTimesPer.__aenter__ now b).1,
     set_cache (insert (_last_bucket s) (CooldownTimesPer.__aenter__ now b).2)
               s).
Proof.
  unfold __aenter__. unfold mbind at 1, M_bind at 1. unfold get at 1.
  unfold mbind at 1, M_bind at 1.
  destruct (_cache s !! _last_bucket s) as [b|] eqn:Hb; simpl.
  - rewrite (_get_cooldown_for_bucket_cached _ _ _ b Hb).
    destruct (CooldownTimesPer.__aenter__ now b) as [r b']. run. done.
  - rewrite (proj2 (_get_cooldown_for_bucket_absent _ _ Hb)).
    destruct (CooldownTimesPer.__aenter__ now _) as [r b']. run.
    f_equal. destruct s; unfold set_cache; simpl. f_equal.
    apply insert_insert_eq.
Qed.

Lemma __call___eq args kwargs s :
  __call__ args kwargs s
  = match (get_bucket args kwargs s).1 with
    | Ok k => (Ok tt, set_last_bucket (Some k) s)
    | Raise e => (Raise e, s)
    end.
Proof.
  unfold __call__. run. pose proof (get_bucket_state args kwargs s) as Hs.
  by destruct (get_bucket args kwargs s) as [[k|e] s']; simpl in *; subst s'.
Qed.

(** The wrapper on the cooldown path: the bucket is recorded, its tracker
    acquired, and the wrapped callable runs only if that succeeded. *)
Lemma inner_cooldown_path check func now args kwargs s use_cooldown k :
  call check args kwargs = Ok use_cooldown ->
  truthy_value use_cooldown = true ->
  (get_bucket args kwargs s).1 = Ok k ->
  inner check func now args kwargs s
  = let b := default (CooldownTimesPer.__init__ (limit s) (time_period s)
                        (self s))
                     (_cache s !! Some k) in
    let s' := set_cache (insert (Some k) (CooldownTimesPer.__aenter__ now b).2)
                        (set_last_bucket (Some k) s) in
    match (CooldownTimesPer.__aenter__ now b).1 with
    | Ok _ => (call func args kwargs, s')
    | Raise e => (Raise e, s')
    end.
Proof.
  intros Hcheck Hv Hk. unfold inner, maybe_coro.
  unfold mbind at 1, M_bind at 1. unfold lift at 1. rewrite Hcheck, Hv.
  cbn [negb]. unfold mbind at 1, M_bind at 1.
  rewrite __call___eq, Hk.
  unfold mbind at 1, M_bind at 1. unfold async_with.
  rewrite __aenter___eq. cbn [_last_bucket set_last_bucket limit time_period
                               self _cache].
  destruct (CooldownTimesPer.__aenter__ now _) as [[[]|e] b']; simpl; [|done].
  unfold lift, __aexit__. run. by destruct (call func args kwargs).
Qed.

(** ** Every cached tracker is the coordinator's own *)

Lemma keeps_ownership_refl s : keeps_ownership s s.
Proof. by intros H. Qed.

Lemma keeps_ownership_trans s1 s2 s3 :
  keeps_ownership s1 s2 -> keeps_ownership s2 s3 -> keeps_ownership s1 s3.
Proof.
  intros H12 H23 Hs1. destruct (H12 Hs1) as [Hs2 (? & ? & ?)].
  destruct (H23 Hs2) as [Hs3 (? & ? & ?)]. split; [done|].
  unfold same_parameters. split; [|split]; congruence.
Qed.

Lemma owned_by_fresh s :
  owned_by s (CooldownTimesPer.__init__ (limit s) (time_period s) (self s))
  = true.
Proof. apply owned_by_spec. by simpl. Qed.

(** An acquisition changes neither the limit, nor the window length, nor
    the back-reference of a tracker. *)
Lemma owned_by_acquired s now b :
  owned_by s b = true ->
  owned_by s (CooldownTimesPer.__aenter__ now b).2 = true.
Proof.
  unfold owned_by, CooldownTimesPer.__aenter__, CooldownTimesPer.reset.
  intros H.
  destruct (CooldownTimesPer.window_deadline b);
    [destruct (CooldownTimesPer.elapsed now b)|];
    match goal with |- context [if ?c then _ else _] => destruct c end;
    exact H.
Qed.

Lemma keeps_ownership_insert s k b :
  owned_by s b = true -> keeps_ownership s (set_cache (insert k b) s).
Proof.
  intros Hb Hs. split; [|done]. unfold cache_owned. simpl.
  apply map_Forall_insert_2; [exact Hb | exact Hs].
Qed.

Lemma keeps_ownership_last_bucket s b :
  keeps_ownership s (set_last_bucket b s).
Proof. by intros Hs. Qed.

Lemma keeps_ownership_evolves now force_evict s s' :
  evolves now force_evict s s' -> keeps_ownership s s'.
Proof.
  intros (E & Hsub & _) Hs. rewrite E. split; [|done].
  intros k b Hk. simpl in Hk. apply Hsub in Hk. by apply Hs in Hk.
Qed.

Lemma keeps_ownership__aenter__ now s :
  keeps_ownership s (__aenter__ now s).2.
Proof.
  rewrite __aenter___eq. cbn [snd]. intros Hs.
  apply keeps_ownership_insert; [|done].
  apply owned_by_acquired.
  destruct (_cache s !! _last_bucket s) as [b|] eqn:Hb; simpl.
  - by apply Hs in Hb.
  - apply owned_by_fresh.
Qed.

Lemma keeps_ownership__call__ args kwargs s :
  keeps_ownership s (__call__ args kwargs s).2.
Proof.
  rewrite __call___eq. destruct (get_bucket args kwargs s).1; simpl.
  - apply keeps_ownership_last_bucket.
  - apply keeps_ownership_refl.
Qed.

Lemma keeps_ownership_sweep depth wakeups s :
  keeps_ownership s (_keep_buckets_clear depth wakeups s).2.
Proof.
  revert s. induction wakeups as [|now wakeups IH]; intros s.
  { apply keeps_ownership_refl. }
  rewrite _keep_buckets_clear_cons.
  pose proof (clear_evolves depth now None false s) as Hev.
  apply keeps_ownership_evolves in Hev.
  destruct (clear depth now None false s) as [[[]|e] s']; simpl in *.
  - eapply keeps_ownership_trans; [exact Hev | apply IH].
  - exact Hev.
Qed.

Lemma keeps_ownership_inner check func now args kwargs s :
  keeps_ownership s (inner check func now args kwargs s).2.
Proof.
  unfold inner, maybe_coro. unfold mbind at 1, M_bind at 1. unfold lift at 1.
  destruct (call check args kwargs) as [v|e]; [|apply keeps_ownership_refl].
  destruct (truthy_value v); cbn [negb]; [|apply keeps_ownership_refl].
  unfold mbind at 1, M_bind at 1.
  pose proof (keeps_ownership__call__ args kwargs s) as Hcall.
  destruct (__call__ args kwargs s) as [[[]|e] s1]; simpl in *; [|done].
  eapply keeps_ownership_trans; [exact Hcall|].
  unfold mbind at 1, M_bind at 1. unfold async_with.
  pose proof (keeps_ownership__aenter__ now s1) as Henter.
  destruct (__aenter__ now s1) as [[[]|e] s2]; simpl in *; [|done].
  unfold lift, __aexit__. run. by destruct (call func args kwargs).
Qed.

Lemma keeps_ownership_perform s op : keeps_ownership s (perform s op).
Proof.
  destruct op; simpl.
  - apply keeps_ownership__call__.
  - apply keeps_ownership__aenter__.
  - apply keeps_ownership_refl.
  - destruct (_cache s !! bucket) as [b|] eqn:Hb.
    + rewrite (_get_cooldown_for_bucket_cached _ _ _ b Hb).
      apply keeps_ownership_refl.
    + destruct (_get_cooldown_for_bucket_absent _ _ Hb) as [Ht Hf].
      destruct raise_on_create.
      * rewrite Ht. apply keeps_ownership_refl.
      * rewrite Hf. apply keeps_ownership_insert, owned_by_fresh.
  - rewrite get_bucket_state. apply keeps_ownership_refl.
  - apply keeps_ownership_sweep.
  - eapply keeps_ownership_evolves, clear_evolves.
  - rewrite remaining_calls_eq.
    destruct (get_bucket args kwargs s).1; [|apply keeps_ownership_refl].
    destruct (_cache s !! Some a); apply keeps_ownership_refl.
  - unfold decorator. destruct (iscoroutinefunction func); simpl.
    + by intros Hs.
    + apply keeps_ownership_refl.
  - apply keeps_ownership_inner.
Qed.

(** C9. Starting from a coordinator in which every cached tracker carries
    the coordinator's limit, its window length and a back-reference to it
    (as in the coordinator [__init__] returns, whose cache is empty), every
    sequence of operations leads to such a coordinator again, with the
    same identity, limit and window: no operation stores a tracker built
    from anything else. *)
Theorem cache_owned_invariant :
  forall (s : Cooldown) (ops : list operation),
    cache_owned s ->
    cache_owned (foldl perform s ops)
    ∧ same_parameters s (foldl perform s ops).
Proof.
  intros s ops. revert s. induction ops as [|op ops IH]; intros s Hs.
  { by split. }
  cbn [foldl].
  destruct (keeps_ownership_perform s op Hs) as [Hs' Hsame].
  destruct (IH _ Hs') as [Hfinal Hsame'].
  split; [done|].
  destruct Hsame as (? & ? & ?), Hsame' as (? & ? & ?).
  unfold same_parameters. split; [|split]; congruence.
Qed.

Lemma cache_owned_invariant_witness :
  cache_owned
    (foldl perform example_cooldown
       [Op_inner default_check example_func 0 [VInt 1] ∅;
        Op__aenter__ 4;
        Op_clear 1000 5 None false;
        Op_remaining_calls [VInt 7] ∅])
  ∧ same_parameters example_cooldown
      (foldl perform example_cooldown
         [Op_inner default_check example_func 0 [VInt 1] ∅;
          Op__aenter__ 4;
          Op_clear 1000 5 None false;
          Op_remaining_calls [VInt 7] ∅]).
Proof.
  apply (cache_owned_invariant example_cooldown).
  apply (bool_decide_unpack _). vm_compute. exact I.
Defined.

(** ** The limit within one window *)

Lemma acquire_opens L tp t0 b :
  CooldownTimesPer.limit b = L ->
  CooldownTimesPer.time_period b = tp ->
  match CooldownTimesPer.window_deadline b with
  | None => true
  | Some deadline => deadline <=? t0
  end = true ->
  (CooldownTimesPer.__aenter__ t0 b).1
  = (if 0 <? L then Ok tt else Raise (CallableOnCooldown (t0 + tp - t0)))
  ∧ in_window L tp t0 1 (CooldownTimesPer.__aenter__ t0 b).2.
Proof.
  intros HL Htp Hopen.
  assert (Hreset :
    match CooldownTimesPer.window_deadline b with
    | None => CooldownTimesPer.reset t0 b
    | Some _ => if CooldownTimesPer.elapsed t0 b
                then CooldownTimesPer.reset t0 b else b
    end = CooldownTimesPer.reset t0 b).
  { unfold CooldownTimesPer.elapsed.
    destruct (CooldownTimesPer.window_deadline b); [|done]. by rewrite Hopen. }
  unfold CooldownTimesPer.__aenter__. rewrite Hreset.
  unfold CooldownTimesPer.reset, CooldownTimesPer.retry_after, in_window.
  simpl. rewrite HL, Htp.
  destruct (0 <? L) eqn:E; simpl.
  - apply Z.ltb_lt in E. repeat split; lia.
  - apply Z.ltb_ge in E. repeat split; lia.
Qed.

Lemma acquire_in_window L tp t0 n now b :
  in_window L tp t0 n b -> 1 <= n -> now < t0 + tp ->
  (CooldownTimesPer.__aenter__ now b).1
  = (if n <? L then Ok tt else Raise (CallableOnCooldown (t0 + tp - now)))
  ∧ in_window L tp t0 (n + 1) (CooldownTimesPer.__aenter__ now b).2.
Proof.
  intros (HL & Htp & Hd & Hc) Hn Hnow.
  unfold CooldownTimesPer.__aenter__, CooldownTimesPer.elapsed.
  rewrite Hd. assert ((t0 + tp <=? now) = false) as -> by lia.
  unfold CooldownTimesPer.retry_after, in_window. rewrite Hd, Hc, HL.
  destruct (n <? L) eqn:E.
  - apply Z.ltb_lt in E.
    assert ((Z.min n (Z.max L 0) <? L) = true) as -> by lia.
    simpl. repeat split; try done. lia.
  - apply Z.ltb_ge in E.
    assert ((Z.min n (Z.max L 0) <? L) = false) as -> by lia.
    simpl. repeat split; try done. lia.
Qed.

(** The wrapper in full: what it returns and the coordinator it leaves. *)
Lemma inner_eq check func now args kwargs s :
  inner check func now args kwargs s
  = match call check args kwargs with
    | Raise e => (Raise e, s)
    | Ok v =>
        if negb (truthy_value v) then (call func args kwargs, s)
        else
          match (get_bucket args kwargs s).1 with
          | Raise e => (Raise e, s)
          | Ok k =>
              let s' := set_cache (insert (Some k)
                                     (acquired s now (_cache s !! Some k)))
                                  (set_last_bucket (Some k) s) in
              match (CooldownTimesPer.__aenter__ now
                       (default (CooldownTimesPer.__init__ (limit s)
                                   (time_period s) (self s))
                                (_cache s !! Some k))).1 with
              | Ok _ => (call func args kwargs, s')
              | Raise e => (Raise e, s')
              end
          end
    end.
Proof.
  destruct (call check args kwargs) as [v|e] eqn:Hcheck.
  2:{ unfold inner, maybe_coro. run. by rewrite Hcheck. }
  destruct (truthy_value v) eqn:Hv; cbn [negb].
  2:{ unfold inner, maybe_coro. run. by rewrite Hcheck, Hv. }
  destruct (get_bucket args kwargs s).1 as [k|e] eqn:Hk.
  - by rewrite (inner_cooldown_path _ _ _ _ _ _ v k).
  - unfold inner, maybe_coro.
    unfold mbind at 1, M_bind at 1. unfold lift at 1. rewrite Hcheck, Hv.
    cbn [negb]. unfold mbind at 1, M_bind at 1.
    by rewrite __call___eq, Hk.
Qed.

Lemma invoke_same_config check func s i :
  same_config s (invoke check func s i).2.
Proof.
  unfold invoke. rewrite inner_eq.
  destruct (call check _ _) as [v|e]; [|done].
  destruct (negb (truthy_value v)); [done|].
  destruct (get_bucket _ _ s).1 as [k|e]; [|done].
  by destruct (CooldownTimesPer.__aenter__ _ _).1.
Qed.

Lemma get_bucket_same_config args kwargs s s' :
  same_config s s' ->
  (get_bucket args kwargs s').1 = (get_bucket args kwargs s).1.
Proof.
  intros (Hb & _). unfold get_bucket. run. rewrite Hb.
  destruct (_bucket s) as [| | |process]; try done.
  by destruct (process args kwargs).
Qed.

Lemma hits_same_config check s s' k i :
  same_config s s' -> hits check s' k i = hits check s k i.
Proof.
  intros H. unfold hits. by rewrite (get_bucket_same_config _ _ s s').
Qed.

Lemma acquired_same_config s s' now o :
  same_config s s' -> acquired s' now o = acquired s now o.
Proof. intros (_ & Hi & Hl & Ht). unfold acquired. by rewrite Hi, Hl, Ht. Qed.

(** A call touches the tracker of the bucket [k] exactly when it hits
    [k]. *)
Lemma invoke_lookup check func s k i :
  _cache (invoke check func s i).2 !! Some k
  = if hits check s k i
    then Some (acquired s (inv_now i) (_cache s !! Some k))
    else _cache s !! Some k.
Proof.
  unfold invoke, hits. rewrite inner_eq.
  destruct (call check _ _) as [v|e]; [|done].
  destruct (truthy_value v); cbn [negb andb]; [|by destruct (get_bucket _ _ _).1].
  destruct (get_bucket _ _ s).1 as [k'|e]; [|done].
  assert (Hs : forall b',
    _cache (set_cache (insert (Some k') b') (set_last_bucket (Some k') s))
      !! Some k
    = if bool_decide (k' = k) then Some b' else _cache s !! Some k).
  { intros b'. simpl. case_bool_decide as Hkk.
    - subst k'. apply lookup_insert_eq.
    - apply lookup_insert_ne. congruence. }
  destruct (CooldownTimesPer.__aenter__ _ _).1; cbn [snd]; rewrite Hs;
    by case_bool_decide; subst.
Qed.

Lemma after_lookup check func s0 k calls s :
  same_config s0 s ->
  _cache (after check func s calls) !! Some k
  = foldl (fun o i => Some (acquired s0 (inv_now i) o)) (_cache s !! Some k)
          (List.filter (hits check s0 k) calls)
  ∧ same_config s0 (after check func s calls).
Proof.
  revert s. induction calls as [|i calls IH]; intros s Hs; [done|].
  unfold after. cbn [foldl List.filter].
  pose proof (invoke_same_config check func s i) as Hstep.
  assert (Hs' : same_config s0 (invoke check func s i).2).
  { destruct Hs as (? & ? & ? & ?), Hstep as (? & ? & ? & ?).
    unfold same_config. repeat split; congruence. }
  destruct (IH _ Hs') as [Hlook Hcfg]. unfold after in Hlook, Hcfg.
  split; [|exact Hcfg].
  rewrite Hlook, invoke_lookup.
  rewrite (hits_same_config check s0 s k i Hs).
  destruct (hits check s0 k i); cbn [foldl]; [|done].
  by rewrite (acquired_same_config s0 s _ _ Hs).
Qed.

Lemma foldl_acquired_Some s0 b (l : list invocation) :
  foldl (fun o i => Some (acquired s0 (inv_now i) o)) (Some b) l
  = Some (foldl (fun b i => (CooldownTimesPer.__aenter__ (inv_now i) b).2)
                b l).
Proof. revert b. induction l as [|i l IH]; intros b; [done|]. apply IH. Qed.

Lemma foldl_in_window L tp t0 m b (later : list invocation) :
  in_window L tp t0 m b -> 1 <= m ->
  forallb (fun i => inv_now i <? t0 + tp) later = true ->
  in_window L tp t0 (m + Z.of_nat (length later))
    (foldl (fun b i => (CooldownTimesPer.__aenter__ (inv_now i) b).2) b later).
Proof.
  revert m b. induction later as [|i later IH]; intros m b Hb Hm Hlater.
  { simpl. by rewrite Z.add_0_r. }
  simpl in Hlater. apply andb_prop in Hlater as [Hi Hlater].
  apply Z.ltb_lt in Hi.
  destruct (acquire_in_window L tp t0 m (inv_now i) b Hb Hm Hi) as [_ Hb'].
  cbn [foldl length].
  replace (m + Z.of_nat (S (length later)))
    with ((m + 1) + Z.of_nat (length later)) by lia.
  apply IH; [done | lia | done].
Qed.

(** The tracker a window opens on: the cached one or a fresh one. *)
Lemma window_opens_at_spec s k t0 :
  window_opens_at s k t0 = true ->
  let b := default (CooldownTimesPer.__init__ (limit s) (time_period s)
                      (self s))
                   (_cache s !! Some k) in
  CooldownTimesPer.limit b = limit s
  ∧ CooldownTimesPer.time_period b = time_period s
  ∧ match CooldownTimesPer.window_deadline b with
    | None => true
    | Some deadline => deadline <=? t0
    end = true.
Proof.
  unfold window_opens_at. destruct (_cache s !! Some k) as [b|]; simpl.
  - intros [Ho Hd]%andb_prop. apply owned_by_spec in Ho as (? & ? & _). done.
  - done.
Qed.



(** ** More on eviction *)

Lemma set_cache_ext f g s :
  f (_cache s) = g (_cache s) -> set_cache f s = set_cache g s.
Proof. intros H. unfold set_cache. by rewrite H. Qed.

Lemma lookup_survivors (now : Z) (force_evict : bool)
  (c : gmap bucket_ref CooldownTimesPer.t) (k : bucket_ref) :
  omap (survives now force_evict) c !! k
  = match c !! k with
    | Some b =>
        if CooldownTimesPer.has_cooldown now b && negb force_evict
        then Some b else None
    | None => None
    end.
Proof.
  rewrite lookup_omap. destruct (c !! k) as [b|]; [|done]. simpl.
  unfold survives.
  by destruct (CooldownTimesPer.has_cooldown now b), force_evict.
Qed.

(** X1. [clear(key)] for a cached key that is an object, given a frame
    for the call: it returns, the entry is kept when its tracker has an
    active cooldown and [force_evict] is false and deleted otherwise, and
    the rest of the coordinator is as before. *)
Theorem clear_cached_key :
  forall (depth : nat) (now : Z) (k : _HashableArguments)
         (force_evict : bool) (s : Cooldown) (b : CooldownTimesPer.t),
    _cache s !! Some k = Some b ->
    clear (S depth) now (Some k) force_evict s
    = (Ok tt,
       if CooldownTimesPer.has_cooldown now b && negb force_evict
       then s else set_cache (delete (Some k)) s).
Proof. intros. by apply clear_key_rule. Qed.

Lemma clear_cached_key_witness :
  clear 1 3 (Some (HashableArguments [VInt 1] ∅)) false example_called
  = (Ok tt, example_called)
  ∧ clear 1 10 (Some (HashableArguments [VInt 1] ∅)) false example_called
    = (Ok tt, set_cache (delete (Some (HashableArguments [VInt 1] ∅)))
                example_called).
Proof.
  split.
  - rewrite (clear_cached_key 0 3 (HashableArguments [VInt 1] ∅) false
               example_called
               (CooldownTimesPer.mk 2 10 1 1 (Some 0) (Some 10)))
      by (vm_compute; reflexivity).
    reflexivity.
  - rewrite (clear_cached_key 0 10 (HashableArguments [VInt 1] ∅) false
               example_called
               (CooldownTimesPer.mk 2 10 1 1 (Some 0) (Some 10)))
      by (vm_compute; reflexivity).
    reflexivity.
Defined.

(** X2. [clear()] on a cache with no entry under [None], given two
    frames: it returns, and afterwards the cache holds exactly the entries
    it held whose tracker has an active cooldown, unchanged, and none at
    all when [force_evict] is set; the rest of the coordinator is as
    before. The loop variable left bound to the last key makes the final
    [try] block repeat a decision already taken. *)
Theorem clear_global_applies_rule :
  forall (depth : nat) (now : Z) (force_evict : bool) (s : Cooldown),
    _cache s !! None = None ->
    exists c',
      clear (S (S depth)) now None force_evict s
      = (Ok tt, set_cache (fun _ => c') s)
      ∧ forall k,
          c' !! k
          = match _cache s !! k with
            | Some b =>
                if CooldownTimesPer.has_cooldown now b && negb force_evict
                then Some b else None
            | None => None
            end.
Proof.
  intros depth now force_evict s HNone.
  exists (omap (survives now force_evict) (_cache s)). split.
  - rewrite clear_all by done. f_equal.
  - intros k. apply lookup_survivors.
Qed.

Lemma clear_global_applies_rule_witness :
  exists c',
    clear 2 3 None false example_called
    = (Ok tt, set_cache (fun _ => c') example_called)
    ∧ forall k,
        c' !! k
        = match _cache example_called !! k with
          | Some b =>
              if CooldownTimesPer.has_cooldown 3 b && negb false
              then Some b else None
          | None => None
          end.
Proof.
  apply (clear_global_applies_rule 0 3 false example_called).
  vm_compute. reflexivity.
Defined.

(** X3. [clear(force_evict=True)] on a cache with no entry under [None]
    resets the coordinator "back to a fresh state": the cache is empty
    afterwards, whatever the trackers report. *)
Theorem clear_force_empties_cache :
  forall (depth : nat) (now : Z) (s : Cooldown),
    _cache s !! None = None ->
    clear (S (S depth)) now None true s = (Ok tt, set_cache (fun _ => ∅) s).
Proof.
  intros depth now s HNone. rewrite clear_all by done. f_equal.
  apply set_cache_ext. apply map_eq. intros k.
  rewrite lookup_survivors, lookup_empty.
  destruct (_cache s !! k) as [b|]; [|done].
  by rewrite andb_false_r.
Qed.

Lemma clear_force_empties_cache_witness :
  clear 2 3 None true example_called
  = (Ok tt, set_cache (fun _ => ∅) example_called).
Proof.
  apply (clear_force_empties_cache 0 3 example_called).
  vm_compute. reflexivity.
Defined.

(** X4. Whatever its arguments and the frames left, [clear] only removes:
    it returns or raises [RecursionError] and nothing else, it changes
    nothing of the coordinator but the cache, and every entry of the cache
    afterwards is an entry, with the same tracker, of the cache before. *)
Theorem clear_only_removes :
  forall (depth : nat) (now : Z) (bucket : bucket_ref) (force_evict : bool)
         (s : Cooldown),
    ((clear depth now bucket force_evict s).1 = Ok tt
     ∨ (clear depth now bucket force_evict s).1 = Raise RecursionError)
    ∧ (clear depth now bucket force_evict s).2
      = set_cache (fun _ => _cache (clear depth now bucket force_evict s).2) s
    ∧ map_Forall
        (fun k b => _cache s !! k = Some b)
        (_cache (clear depth now bucket force_evict s).2).
Proof.
  intros depth now bucket force_evict s. split; [|split].
  - pose proof (clear_raises depth now bucket force_evict s) as Hraise.
    destruct (clear depth now bucket force_evict s).1 as [[]|e]; [by left|].
    right. by rewrite (Hraise e).
  - by destruct (clear_evolves depth now bucket force_evict s) as (E & _).
  - destruct (clear_evolves depth now bucket force_evict s) as (_ & Hsub & _).
    intros k b. apply Hsub.
Qed.

(** X5. [clear(key)] for a key that is an object touches no other entry,
    whether it returns or finds no frame left. *)
Theorem clear_key_leaves_others :
  forall (depth : nat) (now : Z) (k : _HashableArguments)
         (force_evict : bool) (s : Cooldown) (k' : bucket_ref),
    k' ≠ Some k ->
    _cache (clear depth now (Some k) force_evict s).2 !! k' = _cache s !! k'.
Proof. intros. by apply clear_key_other. Qed.

Lemma clear_key_leaves_others_witness :
  _cache (clear 1 50 (Some (HashableArguments [VInt 2] ∅)) true
            example_called).2
    !! Some (HashableArguments [VInt 1] ∅)
  = _cache example_called !! Some (HashableArguments [VInt 1] ∅).
Proof.
  apply (clear_key_leaves_others 1 50 (HashableArguments [VInt 2] ∅) true
           example_called (Some (HashableArguments [VInt 1] ∅))).
  intros [=].
Defined.

(** X6. Clearing twice at the same time is clearing once: after [clear()]
    on a cache with no entry under [None], a second [clear()] with the
    same [force_evict] returns and changes nothing. *)
Theorem clear_global_idempotent :
  forall (depth depth' : nat) (now : Z) (force_evict : bool) (s : Cooldown),
    _cache s !! None = None ->
    clear (S (S depth')) now None force_evict
      (clear (S (S depth)) now None force_evict s).2
    = (Ok tt, (clear (S (S depth)) now None force_evict s).2).
Proof.
  intros depth depth' now force_evict s HNone.
  rewrite (clear_all depth) by done. cbn [snd].
  rewrite clear_all.
  2:{ simpl. by rewrite lookup_omap, HNone. }
  f_equal. destruct s as [? ? ? ? ? ? ? ? c ?]. unfold set_cache; simpl.
  f_equal. apply map_eq. intros k. rewrite !lookup_omap.
  apply survives_idem.
Qed.

Lemma clear_global_idempotent_witness :
  clear 2 3 None false (clear 2 3 None false example_called).2
  = (Ok tt, (clear 2 3 None false example_called).2).
Proof.
  apply (clear_global_idempotent 0 0 3 false example_called).
  vm_compute. reflexivity.
Defined.

(** X7. Per-key clears commute: clearing two keys that are objects, at
    the same time and with the same [force_evict], leaves the same
    coordinator in either order. *)
Theorem clear_keys_commute :
  forall (depth : nat) (now : Z) (k1 k2 : _HashableArguments)
         (force_evict : bool) (s : Cooldown),
    (clear (S depth) now (Some k2) force_evict
       (clear (S depth) now (Some k1) force_evict s).2).2
    = (clear (S depth) now (Some k1) force_evict
         (clear (S depth) now (Some k2) force_evict s).2).2.
Proof.
  intros depth now k1 k2 force_evict s. rewrite !clear_key. cbn [snd].
  destruct s as [? ? ? ? ? ? ? ? c ?]. unfold set_cache; simpl. f_equal.
  apply map_eq. intros k. rewrite !evicted_lookup.
  repeat case_decide; try done; by rewrite ?survives_idem.
Qed.

(** ** More on the background sweep *)

(** X8. With an entry cached under [None], the first cycle of the sweep
    ends in [RecursionError], whatever the frames allowed: the exception
    leaves the [while True] loop, so the task ends and no later cycle
    runs. *)
Theorem sweep_stops_on_None_entry :
  forall (depth : nat) (now : Z) (wakeups : list Z) (s : Cooldown),
    is_Some (_cache s !! None) ->
    (_keep_buckets_clear depth (now :: wakeups) s).1 = Raise RecursionError
    ∧ (_keep_buckets_clear depth (now :: wakeups) s).2
      = (clear depth now None false s).2.
Proof.
  intros depth now wakeups s HNone. rewrite _keep_buckets_clear_cons.
  pose proof (clear_None_cached depth now false s HNone) as Hraise.
  destruct (clear depth now None false s) as [[[]|e] s']; simpl in *.
  - discriminate Hraise.
  - by injection Hraise as ->.
Qed.

Lemma sweep_stops_on_None_entry_witness :
  (_keep_buckets_clear 1000 [250; 500] entered_without_call).1
  = Raise RecursionError
  ∧ (_keep_buckets_clear 1000 [250; 500] entered_without_call).2
    = (clear 1000 250 None false entered_without_call).2.
Proof.
  apply (sweep_stops_on_None_entry 1000 250 [500] entered_without_call).
  vm_compute. eexists. reflexivity.
Defined.

Lemma sweep_lookup depth wakeups s :
  _cache s !! None = None ->
  exists c',
    _keep_buckets_clear (S (S depth)) wakeups s
    = (Ok tt, set_cache (fun _ => c') s)
    ∧ forall k,
        c' !! k
        = match _cache s !! k with
          | Some b =>
              if forallb (fun t => CooldownTimesPer.has_cooldown t b) wakeups
              then Some b else None
          | None => None
          end.
Proof.
  revert s. induction wakeups as [|now wakeups IH]; intros s HNone.
  { exists (_cache s). split.
    - by destruct s.
    - intros k. by destruct (_cache s !! k). }
  rewrite _keep_buckets_clear_cons, clear_all by done.
  destruct (IH (set_cache (omap (survives now false)) s)) as (c' & Hrun & Hc').
  { simpl. by rewrite lookup_omap, HNone. }
  exists c'. split.
  - rewrite Hrun. by destruct s.
  - intros k. rewrite Hc'. simpl. rewrite lookup_survivors.
    destruct (_cache s !! k) as [b|]; [|done].
    rewrite andb_true_r.
    by destruct (CooldownTimesPer.has_cooldown now b).
Qed.

(** X9. On a cache with no entry under [None] and with two frames for
    each cycle, the sweep never raises, and after its cycles the cache
    holds exactly the entries whose tracker reported an active cooldown at
    every cycle: each idle tracker is gone after the first cycle that
    finds it idle. *)
Theorem sweep_evicts_idle :
  forall (depth : nat) (wakeups : list Z) (s : Cooldown),
    _cache s !! None = None ->
    exists c',
      _keep_buckets_clear (S (S depth)) wakeups s
      = (Ok tt, set_cache (fun _ => c') s)
      ∧ forall k,
          c' !! k
          = match _cache s !! k with
            | Some b =>
                if forallb (fun t => CooldownTimesPer.has_cooldown t b)
                           wakeups
                then Some b else None
            | None => None
            end.
Proof. intros. by apply sweep_lookup. Qed.

Lemma sweep_evicts_idle_witness :
  exists c',
    _keep_buckets_clear 2 [3; 12] example_called
    = (Ok tt, set_cache (fun _ => c') example_called)
    ∧ forall k,
        c' !! k
        = match _cache example_called !! k with
          | Some b =>
              if forallb (fun t => CooldownTimesPer.has_cooldown t b) [3; 12]
              then Some b else None
          | None => None
          end.
Proof.
  apply (sweep_evicts_idle 0 [3; 12] example_called).
  vm_compute. reflexivity.
Defined.

(** ** More on lookup and creation *)

(** X10. Get-or-create and lookup round trip: after
    [_get_cooldown_for_bucket(key)] has returned a tracker, the
    non-creating lookup of the same key returns that tracker without
    raising, a second get-or-create returns it again, neither changes the
    coordinator, and the entries under all other keys are those from
    before the first call. *)
Theorem get_or_create_round_trip :
  forall (bucket : bucket_ref) (s : Cooldown),
    exists b,
      (_get_cooldown_for_bucket bucket false s).1 = Ok b
      ∧ let s' := (_get_cooldown_for_bucket bucket false s).2 in
        _get_cooldown_for_bucket bucket true s' = (Ok b, s')
        ∧ _get_cooldown_for_bucket bucket false s' = (Ok b, s')
        ∧ map_Forall
            (fun k' b' => k' = bucket ∨ _cache s !! k' = Some b')
            (_cache s')
        ∧ map_Forall (fun k' b' => _cache s' !! k' = Some b'
                                   ∨ k' = bucket)
                     (_cache s).
Proof.
  intros bucket s. destruct (_cache s !! bucket) as [b|] eqn:Hb.
  - exists b. rewrite (_get_cooldown_for_bucket_cached _ _ _ b Hb).
    cbn [fst snd]. split; [done|].
    rewrite !(_get_cooldown_for_bucket_cached _ _ _ b Hb).
    split; [done|]. split; [done|].
    split; intros k' b' Hk'; [by right | by left].
  - destruct (_get_cooldown_for_bucket_absent _ _ Hb) as [_ Hf].
    exists (CooldownTimesPer.__init__ (limit s) (time_period s) (self s)).
    rewrite Hf. cbn [fst snd]. split; [done|].
    assert (Hin : _cache (set_cache
                   (insert bucket (CooldownTimesPer.__init__ (limit s)
                                     (time_period s) (self s))) s) !! bucket
                  = Some (CooldownTimesPer.__init__ (limit s)
                            (time_period s) (self s))).
    { simpl. apply lookup_insert_eq. }
    rewrite !(_get_cooldown_for_bucket_cached _ _ _ _ Hin).
    split; [done|]. split; [done|]. split.
    + intros k' b'. simpl. destruct (decide (k' = bucket)) as [->|Hne].
      * by left.
      * rewrite lookup_insert_ne by done. by right.
    + intros k' b' Hk'. simpl. destruct (decide (k' = bucket)) as [->|Hne].
      * by right.
      * left. by rewrite lookup_insert_ne.
Qed.

(** ** More on acquisition *)

Lemma __aenter___lookup now s k :
  _cache (__aenter__ now s).2 !! k
  = if decide (k = _last_bucket s)
    then Some (acquired s now (_cache s !! _last_bucket s))
    else _cache s !! k.
Proof.
  rewrite __aenter___eq. cbn [snd]. simpl. case_decide as Hk.
  - subst k. apply lookup_insert_eq.
  - by apply lookup_insert_ne.
Qed.

(** X11. [__aenter__] leaves a tracker cached under [_last_bucket]
    whether the acquisition succeeded or was refused (a refused first
    acquisition creates the entry all the same), touches no other entry,
    and leaves [_last_bucket] and the parameters as they are: entering
    again without a new [cooldown(...)] call acquires the same bucket. *)
Theorem aenter_tracks_last_bucket :
  forall (now : Z) (s : Cooldown) (k : bucket_ref),
    _cache (__aenter__ now s).2 !! k
    = (if decide (k = _last_bucket s)
       then Some (CooldownTimesPer.__aenter__ now
                    (default (CooldownTimesPer.__init__ (limit s)
                                (time_period s) (self s))
                             (_cache s !! _last_bucket s))).2
       else _cache s !! k)
    ∧ _last_bucket (__aenter__ now s).2 = _last_bucket s
    ∧ same_parameters s (__aenter__ now s).2.
Proof.
  intros now s k. split; [apply __aenter___lookup|].
  rewrite __aenter___eq. by cbn [snd].
Qed.

(** X12. The bucket acquired is the one of the latest [cooldown(...)]
    call: when two calls resolving to different buckets are made before
    the coordinator is entered, entering acquires the tracker of the
    second bucket and leaves the entry of the first as it was. *)
Theorem aenter_uses_latest_call :
  forall (now : Z) (s : Cooldown) (args1 args2 : pyargs)
         (kwargs1 kwargs2 : pykwargs) (k1 k2 : _HashableArguments),
    (get_bucket args1 kwargs1 s).1 = Ok k1 ->
    (get_bucket args2 kwargs2 s).1 = Ok k2 ->
    k1 ≠ k2 ->
    let s' := (__aenter__ now
                 (__call__ args2 kwargs2 (__call__ args1 kwargs1 s).2).2).2 in
    _last_bucket s' = Some k2
    ∧ _cache s' !! Some k1 = _cache s !! Some k1
    ∧ _cache s' !! Some k2 = Some (acquired s now (_cache s !! Some k2)).
Proof.
  intros now s args1 args2 kwargs1 kwargs2 k1 k2 H1 H2 Hne.
  rewrite (__call___eq args1), H1. cbn [snd].
  rewrite (__call___eq args2).
  rewrite (get_bucket_same_config _ _ s) by done. rewrite H2. cbn [snd].
  cbn zeta. split; [|split].
  - rewrite __aenter___eq. by cbn [snd].
  - rewrite __aenter___lookup. cbn [_last_bucket set_last_bucket].
    rewrite decide_False by congruence. done.
  - rewrite __aenter___lookup. cbn [_last_bucket set_last_bucket].
    by rewrite decide_True.
Qed.

Lemma aenter_uses_latest_call_witness :
  let s' := (__aenter__ 4
               (__call__ [VInt 2] ∅ (__call__ [VInt 1] ∅ example_called).2).2).2 in
  _last_bucket s' = Some (HashableArguments [VInt 2] ∅)
  ∧ _cache s' !! Some (HashableArguments [VInt 1] ∅)
    = _cache example_called !! Some (HashableArguments [VInt 1] ∅)
  ∧ _cache s' !! Some (HashableArguments [VInt 2] ∅)
    = Some (acquired example_called 4
              (_cache example_called !! Some (HashableArguments [VInt 2] ∅))).
Proof.
  apply (aenter_uses_latest_call 4 example_called [VInt 1] [VInt 2] ∅ ∅
           (HashableArguments [VInt 1] ∅) (HashableArguments [VInt 2] ∅)).
  - reflexivity.
  - reflexivity.
  - intros [=].
Defined.

(** ** More on the wrapper *)

(** X13. An exception raised by [check], or by a custom strategy while
    the bucket is resolved, leaves the wrapper unchanged; the wrapped
    callable's result is not returned, and the coordinator is as before:
    no bucket recorded, no tracker created, nothing consumed. *)
Theorem inner_propagates_errors :
  forall (check func : Callable) (now : Z) (args : pyargs)
         (kwargs : pykwargs) (s : Cooldown) (e : exn),
    (call check args kwargs = Raise e
     ∨ exists v, call check args kwargs = Ok v ∧ truthy_value v = true
                 ∧ (get_bucket args kwargs s).1 = Raise e) ->
    inner check func now args kwargs s = (Raise e, s).
Proof.
  intros check func now args kwargs s e H. rewrite inner_eq.
  destruct H as [Hc | (v & Hc & Hv & Hb)]; rewrite Hc; [done|].
  by rewrite Hv, Hb.
Qed.

Lemma inner_propagates_errors_witness :
  inner raising_check example_func 3 [VInt 1] ∅ example_called
  = (Raise (UserError (VStr "check")), example_called)
  ∧ inner default_check example_func 3 [VInt 1] ∅
      (mkCooldown 1 2 10 None None raising_bucket false None ∅ 250)
    = (Raise (UserError (VStr "bucket")),
       mkCooldown 1 2 10 None None raising_bucket false None ∅ 250).
Proof.
  split.
  - apply (inner_propagates_errors raising_check example_func 3 [VInt 1] ∅
             example_called). by left.
  - apply (inner_propagates_errors default_check example_func 3 [VInt 1] ∅
             (mkCooldown 1 2 10 None None raising_bucket false None ∅ 250)).
    right. exists (VInt 1). by repeat split.
Defined.




(** ** Calls, introspection and the sweep together *)

Lemma invoke_lookup_None check func s i :
  _cache (invoke check func s i).2 !! None = _cache s !! None.
Proof.
  unfold invoke. rewrite inner_eq.
  destruct (call check _ _) as [v|e]; [|done].
  destruct (negb (truthy_value v)); [done|].
  destruct (get_bucket _ _ s).1 as [k|e]; [|done].
  by destruct (CooldownTimesPer.__aenter__ _ _).1; simpl;
    rewrite lookup_insert_ne.
Qed.

(** The tracker of a bucket that was not tracked, after the calls of one
    window that hit it. *)
Lemma after_untracked check func s k calls :
  _cache s !! Some k = None ->
  single_window (hits check s k) s k calls = true ->
  match List.filter (hits check s k) calls with
  | [] => _cache (after check func s calls) !! Some k = None
  | i0 :: later =>
      exists b,
        _cache (after check func s calls) !! Some k = Some b
        ∧ in_window (limit s) (time_period s) (inv_now i0)
                    (1 + Z.of_nat (length later)) b
  end.
Proof.
  intros Hk Hwin.
  assert (Hrefl : same_config s s) by done.
  destruct (after_lookup check func s k calls s Hrefl) as [Hlook _].
  unfold single_window in Hwin. rewrite Hlook, Hk.
  destruct (List.filter (hits check s k) calls) as [|i0 later]; [done|].
  apply andb_prop in Hwin as [Hopen Hlater].
  destruct (window_opens_at_spec s k (inv_now i0) Hopen) as (HL & HT & HD).
  destruct (acquire_opens _ _ _ _ HL HT HD) as [_ Hb1].
  rewrite Hk in Hb1. cbn [foldl]. rewrite foldl_acquired_Some.
  eexists. split; [reflexivity|].
  by apply foldl_in_window.
Qed.

(** X15. [remaining_calls] counts down with the calls of a window: for a
    bucket that was not tracked, after [n] calls that took the cooldown
    path on it within one window, [remaining_calls] with arguments
    resolving to that bucket returns [limit - n], and 0 once [n] has
    reached the limit (with a limit that is not positive, the limit
    itself); it leaves the coordinator as it is. *)
Theorem remaining_calls_counts_down :
  forall (check func : Callable) (s : Cooldown) (k : _HashableArguments)
         (calls : list invocation) (args : pyargs) (kwargs : pykwargs),
    _cache s !! Some k = None ->
    single_window (hits check s k) s k calls = true ->
    (get_bucket args kwargs s).1 = Ok k ->
    remaining_calls args kwargs (after check func s calls)
    = (Ok (limit s
           - Z.min (Z.of_nat (length (List.filter (hits check s k) calls)))
                   (Z.max (limit s) 0)),
       after check func s calls).
Proof.
  intros check func s k calls args kwargs Hk Hwin Hb.
  assert (Hrefl : same_config s s) by done.
  destruct (after_lookup check func s k calls s Hrefl) as [_ Hcfg].
  pose proof (after_untracked check func s k calls Hk Hwin) as Hafter.
  rewrite remaining_calls_eq.
  rewrite (get_bucket_same_config _ _ s _ Hcfg), Hb.
  destruct Hcfg as (_ & _ & Hlimit & _).
  destruct (List.filter (hits check s k) calls) as [|i0 later].
  - rewrite Hafter, Hlimit. cbn [length]. do 2 f_equal. lia.
  - destruct Hafter as (b & Hlook & HL & _ & _ & Hc). rewrite Hlook.
    unfold CooldownTimesPer.current. rewrite HL, Hc. do 3 f_equal.
    cbn [length]. lia.
Qed.

Lemma remaining_calls_counts_down_witness :
  remaining_calls [VInt 1] ∅
    (after default_check example_func example_cooldown
       [mkInvocation 0 [VInt 1] ∅; mkInvocation 1 [VInt 2] ∅;
        mkInvocation 3 [VInt 1] ∅; mkInvocation 5 [VInt 1] ∅])
  = (Ok 0,
     after default_check example_func example_cooldown
       [mkInvocation 0 [VInt 1] ∅; mkInvocation 1 [VInt 2] ∅;
        mkInvocation 3 [VInt 1] ∅; mkInvocation 5 [VInt 1] ∅]).
Proof.
  rewrite (remaining_calls_counts_down default_check example_func
             example_cooldown (HashableArguments [VInt 1] ∅)
             [mkInvocation 0 [VInt 1] ∅; mkInvocation 1 [VInt 2] ∅;
              mkInvocation 3 [VInt 1] ∅; mkInvocation 5 [VInt 1] ∅]
             [VInt 1] ∅)
    by (vm_compute; reflexivity).
  vm_compute. reflexivity.
Defined.

(** X16. A call and the sweep: after one call that took the cooldown path
    on a bucket that was not tracked (in a cache with no entry under
    [None]), a sweep cycle keeps the bucket's tracker while the call's
    window is open, provided the limit let the call through, and evicts
    it otherwise: once the window is over the entry is gone, and the
    entry of a refused first call goes at the next cycle. *)
Theorem sweep_after_call :
  forall (depth : nat) (check func : Callable) (s : Cooldown)
         (k : _HashableArguments) (i : invocation) (now : Z),
    _cache s !! None = None ->
    _cache s !! Some k = None ->
    hits check s k i = true ->
    let s1 := (invoke check func s i).2 in
    (clear (S (S depth)) now None false s1).1 = Ok tt
    ∧ _cache (clear (S (S depth)) now None false s1).2 !! Some k
      = if (0 <? limit s) && (now <? inv_now i + time_period s)
        then _cache s1 !! Some k else None.
Proof.
  intros depth check func s k i now HNone Hk Hhit. cbn zeta.
  assert (HNone1 : _cache (invoke check func s i).2 !! None = None).
  { by rewrite invoke_lookup_None. }
  rewrite clear_all by done. cbn [fst snd]. split; [done|].
  simpl. rewrite lookup_survivors.
  rewrite invoke_lookup, Hhit, Hk. rewrite andb_true_r.
  assert (Hopen : window_opens_at s k (inv_now i) = true).
  { unfold window_opens_at. by rewrite Hk. }
  destruct (window_opens_at_spec s k (inv_now i) Hopen) as (HL & HT & HD).
  destruct (acquire_opens _ _ _ _ HL HT HD) as [_ Hb1].
  rewrite Hk in Hb1. destruct Hb1 as (_ & _ & Hd & Hc).
  unfold acquired.
  unfold CooldownTimesPer.has_cooldown, CooldownTimesPer.elapsed.
  rewrite Hd, Hc.
  destruct (0 <? limit s) eqn:EL, (now <? inv_now i + time_period s) eqn:EN;
    cbn [andb].
  - assert ((0 <? Z.min 1 (Z.max (limit s) 0)) = true) as -> by lia.
    assert ((inv_now i + time_period s <=? now) = false) as -> by lia.
    done.
  - assert ((inv_now i + time_period s <=? now) = true) as -> by lia.
    by rewrite andb_false_r.
  - assert ((0 <? Z.min 1 (Z.max (limit s) 0)) = false) as -> by lia. done.
  - assert ((0 <? Z.min 1 (Z.max (limit s) 0)) = false) as -> by lia. done.
Qed.

Lemma sweep_after_call_witness :
  let s1 := (invoke default_check example_func example_cooldown
               (mkInvocation 0 [VInt 1] ∅)).2 in
  ((clear 2 3 None false s1).1 = Ok tt
   ∧ _cache (clear 2 3 None false s1).2 !! Some (HashableArguments [VInt 1] ∅)
     = _cache s1 !! Some (HashableArguments [VInt 1] ∅))
  ∧ ((clear 2 10 None false s1).1 = Ok tt
     ∧ _cache (clear 2 10 None false s1).2
         !! Some (HashableArguments [VInt 1] ∅)
       = None).
Proof.
  split.
  - apply (sweep_after_call 0 default_check example_func example_cooldown
             (HashableArguments [VInt 1] ∅) (mkInvocation 0 [VInt 1] ∅) 3);
      reflexivity.
  - apply (sweep_after_call 0 default_check example_func example_cooldown
             (HashableArguments [VInt 1] ∅) (mkInvocation 0 [VInt 1] ∅) 10);
      reflexivity.
Defined.

(** ** Construction and decoration, end to end *)

(** X17. A coordinator constructed without a strategy uses
    [CooldownBucket.all]: its [bucket] property is [all], [get_bucket]
    keys a call by all its positional and keyword arguments, its cache is
    empty, and [remaining_calls] answers [limit] for any arguments. *)
Theorem default_strategy_is_all :
  forall (self : positive) (limit time_period : Z) (f : option Callable)
         (cooldown_id : option value) (c : Cooldown) (args : pyargs)
         (kwargs : pykwargs),
    __init__ true self limit time_period None f cooldown_id = Ok c ->
    CooldownProperty.bucket c = CooldownBucket_all
    ∧ _cache c = ∅
    ∧ get_bucket args kwargs c = (Ok (HashableArguments args kwargs), c)
    ∧ remaining_calls args kwargs c = (Ok limit, c).
Proof.
  intros self limit time_period f cooldown_id c args kwargs [= <-].
  split; [done|]. split; [done|]. split; [done|].
  rewrite remaining_calls_eq. simpl. by rewrite lookup_empty.
Qed.

Lemma default_strategy_is_all_witness :
  CooldownProperty.bucket (mkCooldown 1 1 10 None None CooldownBucket_all false None ∅ 250)
  = CooldownBucket_all
  ∧ _cache (mkCooldown 1 1 10 None None CooldownBucket_all false None ∅ 250)
    = ∅
  ∧ get_bucket [VInt 1; VInt 2] {[ "three" := VInt 3; "four" := VInt 4 ]}
      (mkCooldown 1 1 10 None None CooldownBucket_all false None ∅ 250)
    = (Ok (HashableArguments [VInt 1; VInt 2]
             {[ "three" := VInt 3; "four" := VInt 4 ]}),
       mkCooldown 1 1 10 None None CooldownBucket_all false None ∅ 250)
  ∧ remaining_calls [VInt 1; VInt 2]
      {[ "three" := VInt 3; "four" := VInt 4 ]}
      (mkCooldown 1 1 10 None None CooldownBucket_all false None ∅ 250)
    = (Ok 1, mkCooldown 1 1 10 None None CooldownBucket_all false None ∅ 250).
Proof.
  apply (default_strategy_is_all 1%positive 1 10 None None
           (mkCooldown 1 1 10 None None CooldownBucket_all false None ∅ 250)
           [VInt 1; VInt 2] {[ "three" := VInt 3; "four" := VInt 4 ]}).
  reflexivity.
Defined.

(** X18. Decorating a coroutine function with [cooldown(limit, ...)],
    with an event loop running: the factory and the decorator succeed, the
    coordinator's [func] property is the decorated function, whose
    [_cooldowns] lists the coordinator last, and with a positive limit the
    first call of the wrapper that takes the cooldown path returns what
    the function returns. *)
Theorem decorated_first_call :
  forall (self : positive) (limit time_period : Z)
         (strategy : CooldownBucketProtocol) (check f : Callable)
         (cooldown_id : option value) (now : Z) (args : pyargs)
         (kwargs : pykwargs) (v : value) (k : _HashableArguments),
    iscoroutinefunction f = true ->
    call check args kwargs = Ok v ->
    truthy_value v = true ->
    (get_bucket args kwargs
       (mkCooldown self limit time_period cooldown_id None strategy false
                   None ∅ 250)).1 = Ok k ->
    0 < limit ->
    exists c dec f' wrapper c',
      cooldown true self limit time_period strategy check cooldown_id
      = Ok (c, dec)
      ∧ dec f c = (Ok (f', wrapper), c')
      ∧ CooldownProperty.func c' = Some f'
      ∧ _cooldowns f' = _cooldowns f ++ [self]
      ∧ _cache c' = ∅
      ∧ (wrapper now args kwargs c').1 = call f args kwargs.
Proof.
  intros self limit time_period strategy check f cooldown_id now args kwargs
         v k Hcoro Hcheck Hv Hk Hlimit.
  unfold cooldown, __init__. cbn [default from_option].
  eexists _, _, _, _, _. split; [reflexivity|].
  unfold decorator. rewrite Hcoro. cbn [negb]. run.
  split; [reflexivity|]. split; [done|]. split; [done|]. split; [done|].
  erewrite (inner_cooldown_path check _ now args kwargs _ v k); try done.
  2:{ erewrite get_bucket_same_config; [exact Hk | done]. }
  cbn zeta. simpl. rewrite lookup_empty. cbn [default from_option].
  unfold CooldownTimesPer.__aenter__, CooldownTimesPer.__init__,
    CooldownTimesPer.reset. simpl.
  assert ((0 <? limit) = true) as -> by lia. done.
Qed.

Lemma decorated_first_call_witness :
  exists c dec f' wrapper c',
    cooldown true 1 2 10 CooldownBucket_args default_check None = Ok (c, dec)
    ∧ dec example_func c = (Ok (f', wrapper), c')
    ∧ CooldownProperty.func c' = Some f'
    ∧ _cooldowns f' = _cooldowns example_func ++ [1%positive]
    ∧ _cache c' = ∅
    ∧ (wrapper 0 [VInt 1] {[ "two" := VInt 2 ]} c').1
      = call example_func [VInt 1] {[ "two" := VInt 2 ]}.
Proof.
  apply (decorated_first_call 1%positive 2 10 CooldownBucket_args
           default_check example_func None 0 [VInt 1] {[ "two" := VInt 2 ]}
           (VInt 1) (HashableArguments [VInt 1] ∅)); try reflexivity.
Defined.
